(** * Test-Implementation Matcher: a shallow embedding of
      [spring-boot-kotlin-tdd/scripts/test_impl_matcher.py]

    The matcher compares a test corpus with an implementation corpus by
    regular-expression extraction and four validation rules.  The model
    follows the Python source function by function:

    - Python [str] values are [string]s; the corpora are taken to be ASCII
      text, so that [\w], [\s] and [str.strip] have their ASCII meaning;
    - [re.finditer] is a backtracking matcher over a regex syntax tree, with
      greedy and lazy repetition and numbered groups, scanning left to right
      for non-overlapping matches;
    - a [dict] is an association list in insertion order; a [set] of strings
      is the duplicate-free list of its elements, iterated in an order that
      the interpreter (string hashing) chooses: the order is a parameter;
    - [self.errors] and [self.warnings] live in an explicit matcher state
      that every [validate_*] method threads through;
    - the driver returns the printed lines and a process outcome. *)

From Stdlib Require Import String Ascii.
From Stdlib Require Import List Bool Arith Lia Permutation.
From Stdlib Require Import Numbers.DecimalString.
Import ListNotations.

Open Scope string_scope.
Open Scope list_scope.
Open Scope nat_scope.

(** ** Characters and strings *)

Definition chars := list ascii.

Definition code (c : ascii) : nat := nat_of_ascii c.

Definition in_range (lo hi : nat) (c : ascii) : bool :=
  (lo <=? code c) && (code c <=? hi).

(** [\w] on ASCII text: letters, digits and the underscore. *)
Definition is_word (c : ascii) : bool :=
  in_range 97 122 c || in_range 65 90 c || in_range 48 57 c || (code c =? 95).

(** [\s] and the characters [str.strip()] removes, on ASCII text:
    TAB, LF, VT, FF, CR, the separators 0x1c-0x1f and the space. *)
Definition is_space (c : ascii) : bool :=
  in_range 9 13 c || in_range 28 31 c || (code c =? 32).

Definition newline : ascii := ascii_of_nat 10.

(** [.] without [re.DOTALL] matches everything but a line feed. *)
Definition is_dot (c : ascii) : bool := negb (Ascii.eqb c newline).

(** [.] under [re.DOTALL]. *)
Definition is_any (_ : ascii) : bool := true.

Definition str (l : chars) : string := string_of_list_ascii l.
Definition unstr (s : string) : chars := list_ascii_of_string s.

(** ** Regular expressions as [re] interprets them *)

Module Re.

Inductive regex : Type :=
| Empty
| Lit (c : ascii)
| Class (p : ascii -> bool)
| Seq (r1 r2 : regex)
| Alt (r1 r2 : regex)
| Star (greedy : bool) (r : regex)
| Group (n : nat) (r : regex).

Definition Plus (r : regex) : regex := Seq r (Star true r).

Fixpoint Word (l : chars) : regex :=
  match l with
  | [] => Empty
  | c :: t => Seq (Lit c) (Word t)
  end.

Definition Text (s : string) : regex := Word (unstr s).

(** Group bindings of a match in progress: the latest binding is first. *)
Definition caps := list (nat * chars).

Fixpoint group (n : nat) (cs : caps) : option chars :=
  match cs with
  | [] => None
  | (k, v) :: t => if k =? n then Some v else group n t
  end.

(** What was read between the input [s] and its suffix [s']. *)
Definition consumed (s s' : chars) : chars :=
  firstn (length s - length s') s.

Definition result := option (caps * chars).
Definition cont := chars -> caps -> result.

Definition orelse (a : result) (b : unit -> result) : result :=
  match a with
  | Some x => Some x
  | None => b tt
  end.

(** One repetition [r*] or [r*?].  [body] matches [r] once; an iteration
    must read at least one character, so [n = length s] iterations are
    always enough and the counter never cuts a match short. *)
Fixpoint star_loop (body : chars -> caps -> cont -> result) (greedy : bool)
    (k : cont) (n : nat) (s : chars) (cs : caps) : result :=
  let more (_ : unit) :=
    match n with
    | 0 => None
    | S n' =>
        body s cs (fun s' cs' =>
          if length s' <? length s
          then star_loop body greedy k n' s' cs'
          else None)
    end in
  if greedy then orelse (more tt) (fun _ => k s cs)
  else orelse (k s cs) more.

(** Backtracking match of [r] at the head of [s], then the continuation:
    alternatives are tried in the order [re] tries them, and the first
    success is the match. *)
Fixpoint rmatch (r : regex) (s : chars) (cs : caps) (k : cont) : result :=
  match r with
  | Empty => k s cs
  | Lit c =>
      match s with
      | x :: t => if Ascii.eqb x c then k t cs else None
      | [] => None
      end
  | Class p =>
      match s with
      | x :: t => if p x then k t cs else None
      | [] => None
      end
  | Seq r1 r2 => rmatch r1 s cs (fun s' cs' => rmatch r2 s' cs' k)
  | Alt r1 r2 => orelse (rmatch r1 s cs k) (fun _ => rmatch r2 s cs k)
  | Star g r1 => star_loop (rmatch r1) g k (length s) s cs
  | Group n r1 =>
      rmatch r1 s cs (fun s' cs' => k s' ((n, consumed s s') :: cs'))
  end.

Definition accept : cont := fun s cs => Some (cs, s).

(** [pattern.match(s)]: the groups and the unread rest. *)
Definition match_here (r : regex) (s : chars) : result :=
  rmatch r s [] accept.

(** [re.finditer]: non-overlapping matches, leftmost first.  [skip] counts
    the characters still covered by the previous match. *)
Fixpoint scan (r : regex) (s : chars) (skip : nat) : list caps :=
  match s with
  | [] => []
  | _ :: t =>
      match skip with
      | S k => scan r t k
      | 0 =>
          match match_here r s with
          | Some (cs, rest) =>
              cs :: scan r t (length s - length rest - 1)
          | None => scan r t 0
          end
      end
  end.

Definition finditer (r : regex) (text : string) : list caps :=
  scan r (unstr text) 0.

(** [match.group(n)] of a group that took part in the match. *)
Definition group_str (n : nat) (cs : caps) : string :=
  match group n cs with
  | Some v => str v
  | None => ""
  end.

End Re.

Import Re.

(** ** The patterns of the source *)

Definition w : regex := Class is_word.
Definition ws : regex := Star true (Class is_space).
Definition lparen : regex := Lit "(".
Definition rparen : regex := Lit ")".

(** Pattern "(\w+)\.(\w+)\s*\(" *)
Definition call_pattern : regex :=
  Seq (Group 1 (Plus w))
      (Seq (Lit ".") (Seq (Group 2 (Plus w)) (Seq ws lparen))).

(** Pattern "fun\s+(\w+)\s*\(" *)
Definition def_pattern : regex :=
  Seq (Text "fun")
      (Seq (Plus (Class is_space)) (Seq (Group 1 (Plus w)) (Seq ws lparen))).

(** Pattern "fun\s+(G)\s*\(" where the group G is "(?:test|should|when)\w*" *)
Definition test_method_pattern : regex :=
  Seq (Text "fun")
      (Seq (Plus (Class is_space))
           (Seq (Group 1 (Seq (Alt (Text "test") (Alt (Text "should") (Text "when")))
                              (Star true w)))
                (Seq ws lparen))).

(** Pattern "class\s+(\w+)(?:ServiceTest|RepositoryTest|ControllerTest)" *)
Definition entity_pattern : regex :=
  Seq (Text "class")
      (Seq (Plus (Class is_space))
           (Seq (Group 1 (Plus w))
                (Alt (Text "ServiceTest")
                     (Alt (Text "RepositoryTest") (Text "ControllerTest"))))).

(** Pattern "throws\s+(G)" where the group G is "\w+(?:\s*,\s*\w+)*" *)
Definition throws_pattern : regex :=
  Seq (Text "throws")
      (Seq (Plus (Class is_space))
           (Group 1 (Seq (Plus w)
                         (Star true (Seq ws (Seq (Lit ",") (Seq ws (Plus w)))))))).

(** Pattern "assertThatThrownBy.*?\.isInstanceOf\((\w+)" under [re.DOTALL] *)
Definition exc_test_pattern : regex :=
  Seq (Text "assertThatThrownBy")
      (Seq (Star false (Class is_any))
           (Seq (Text ".isInstanceOf(") (Group 1 (Plus w)))).

(** The tail "\((.*?)\)" shared by the two signature patterns. *)
Definition args_tail : regex :=
  Seq lparen (Seq (Group 2 (Star false (Class is_dot))) rparen).

(** Pattern "fun\s+(\w+)\s*\((.*?)\)" *)
Definition impl_pattern : regex :=
  Seq (Text "fun")
      (Seq (Plus (Class is_space)) (Seq (Group 1 (Plus w)) (Seq ws args_tail))).

(** Pattern "\.(\w+)\s*\((.*?)\)" *)
Definition test_pattern : regex :=
  Seq (Lit ".") (Seq (Group 1 (Plus w)) (Seq ws args_tail)).

Definition groups12 (cs : caps) : string * string :=
  (group_str 1 cs, group_str 2 cs).

(** ** Python strings *)

Module Py.

(** [s.split(sep)] for a one-character separator: never empty. *)
Fixpoint split_chars (sep : ascii) (s : chars) : list chars :=
  match s with
  | [] => [[]]
  | c :: t =>
      if Ascii.eqb c sep then [] :: split_chars sep t
      else match split_chars sep t with
           | seg :: segs => (c :: seg) :: segs
           | [] => [[c]]
           end
  end.

Definition split (sep : ascii) (s : string) : list string :=
  map str (split_chars sep (unstr s)).

Fixpoint lstrip_chars (s : chars) : chars :=
  match s with
  | c :: t => if is_space c then lstrip_chars t else s
  | [] => []
  end.

(** [s.strip()] *)
Definition strip (s : string) : string :=
  str (rev (lstrip_chars (rev (lstrip_chars (unstr s))))).

(** [s.replace(' ', '')] *)
Definition remove_spaces (s : string) : string :=
  str (filter (fun c => negb (Ascii.eqb c " ")) (unstr s)).

(** [s.startswith('_')] *)
Definition startswith_underscore (s : string) : bool :=
  match s with
  | String c _ => Ascii.eqb c "_"
  | EmptyString => false
  end.

(** Truth value of a string: non-empty. *)
Definition truthy (s : string) : bool :=
  match s with
  | EmptyString => false
  | String _ _ => true
  end.

(** [str(n)] for a non-negative [int]. *)
Definition str_of_nat (n : nat) : string :=
  NilEmpty.string_of_uint (Nat.to_uint n).

Fixpoint join (sep : string) (l : list string) : string :=
  match l with
  | [] => ""
  | [x] => x
  | x :: t => x ++ sep ++ join sep t
  end.

Definition hex_digit (n : nat) : ascii :=
  if n <? 10 then ascii_of_nat (48 + n) else ascii_of_nat (87 + n).

Definition squote : ascii := "'".
Definition dquote : ascii := ascii_of_nat 34.
Definition backslash : ascii := "\".

(** One character of [repr(s)] inside the quote [q]. *)
Definition repr_char (q c : ascii) : chars :=
  if Ascii.eqb c q || Ascii.eqb c backslash then [backslash; c]
  else if code c =? 9 then [backslash; "t"%char]
  else if code c =? 10 then [backslash; "n"%char]
  else if code c =? 13 then [backslash; "r"%char]
  else if (code c <? 32) || (code c =? 127)
       then [backslash; "x"%char; hex_digit (code c / 16); hex_digit (code c mod 16)]
  else [c].

(** [repr(s)] of an ASCII string: single quotes, unless the string has a
    single quote and no double quote. *)
Definition repr_str (s : string) : string :=
  let l := unstr s in
  let q := if existsb (Ascii.eqb squote) l && negb (existsb (Ascii.eqb dquote) l)
           then dquote else squote in
  str (q :: flat_map (repr_char q) l ++ [q]).

Fixpoint repeat_str (s : string) (n : nat) : string :=
  match n with
  | 0 => ""
  | S k => s ++ repeat_str s k
  end.

(** *** Sets of strings

    A set is kept as the list of its elements in the order they were first
    added.  Iterating a set does not follow that order: CPython walks the
    hash table, and string hashes are salted per interpreter process.  The
    order of iteration is therefore a parameter of the model. *)

Definition pyset := list string.

Record HashOrder : Type := {
  set_iter : pyset -> list string;
  set_iter_perm : forall s, Permutation (set_iter s) s
}.

Definition mem (x : string) (s : list string) : bool :=
  existsb (String.eqb x) s.

(** [s.add(x)] *)
Definition set_add (s : pyset) (x : string) : pyset :=
  if mem x s then s else s ++ [x].

(** [s.update(xs)] for an iterable already laid out as a list. *)
Definition set_update (s : pyset) (xs : list string) : pyset :=
  fold_left set_add xs s.

(** [{m for m in s if p(m)}] *)
Definition set_comp (h : HashOrder) (p : string -> bool) (s : pyset) : pyset :=
  set_update [] (filter p (set_iter h s)).

(** [a - b] *)
Definition set_diff (h : HashOrder) (a b : pyset) : pyset :=
  set_update [] (filter (fun x => negb (mem x b)) (set_iter h a)).

(** [repr] of a set, as an f-string prints it. *)
Definition repr_set (h : HashOrder) (s : pyset) : string :=
  match s with
  | [] => "set()"
  | _ => "{" ++ join ", " (map repr_str (set_iter h s)) ++ "}"
  end.

(** *** Dictionaries with string keys, in insertion order *)

Definition dict (V : Type) := list (string * V).

Fixpoint dict_get {V} (k : string) (d : dict V) : option V :=
  match d with
  | [] => None
  | (k', v) :: t => if String.eqb k k' then Some v else dict_get k t
  end.

(** [d[k] = v]: an existing key keeps its place. *)
Fixpoint dict_set {V} (k : string) (v : V) (d : dict V) : dict V :=
  match d with
  | [] => [(k, v)]
  | (k', v') :: t =>
      if String.eqb k k' then (k, v) :: t else (k', v') :: dict_set k v t
  end.

Definition dict_mem {V} (k : string) (d : dict V) : bool :=
  match dict_get k d with
  | Some _ => true
  | None => false
  end.

Definition keys {V} (d : dict V) : list string := map fst d.
Definition values {V} (d : dict V) : list V := map snd d.

End Py.

Import Py.

(** ** The matcher: [class TestImplMatcher] *)

Record matcher : Type := {
  test_code : string;
  impl_code : string;
  errors : list string;
  warnings : list string
}.

(** [TestImplMatcher(test_code, impl_code)] *)
Definition init (test impl : string) : matcher :=
  {| test_code := test; impl_code := impl; errors := []; warnings := [] |}.

Definition with_errors (self : matcher) (errs : list string) : matcher :=
  {| test_code := test_code self; impl_code := impl_code self;
     errors := errs; warnings := warnings self |}.

Definition with_warnings (self : matcher) (warns : list string) : matcher :=
  {| test_code := test_code self; impl_code := impl_code self;
     errors := errors self; warnings := warns |}.

(** *** Extraction *)

(** The (receiver, method) pairs of the matches, first to last. *)
Definition call_sites (test : string) : list (string * string) :=
  map groups12 (finditer call_pattern test).

(** The body of the loop of [extract_method_calls]. *)
Definition record_call (calls_by_class : dict pyset) (site : string * string)
  : dict pyset :=
  let (obj, method) := site in
  let calls_by_class :=
    if dict_mem obj calls_by_class then calls_by_class
    else dict_set obj [] calls_by_class in
  match dict_get obj calls_by_class with
  | Some methods => dict_set obj (set_add methods method) calls_by_class
  | None => calls_by_class
  end.

Definition calls_of_sites (sites : list (string * string)) : dict pyset :=
  fold_left record_call sites [].

Definition extract_method_calls (self : matcher) : dict pyset :=
  calls_of_sites (call_sites (test_code self)).

Definition extract_method_defs (self : matcher) : pyset :=
  fold_left set_add (map (group_str 1) (finditer def_pattern (impl_code self))) [].

Definition extract_test_methods (self : matcher) : pyset :=
  fold_left set_add
    (map (group_str 1) (finditer test_method_pattern (test_code self))) [].

Definition extract_entities_from_tests (self : matcher) : pyset :=
  fold_left set_add
    (map (group_str 1) (finditer entity_pattern (test_code self))) [].

(** *** Rule 1: methods called in tests but not defined *)

Definition common_helpers : list string :=
  ["assertEquals"; "assertTrue"; "assertFalse"; "reset"; "given"; "verify"].

Definition undefined_msg (method : string) : string :=
  "Method '" ++ method ++ "' is called in tests but not found in implementation".

(** The body of the inner loop: [continue] on a helper, append on a miss. *)
Definition check_method (defs : pyset) (errs : list string) (method : string)
  : list string :=
  if mem method common_helpers then errs
  else if negb (mem method defs) then errs ++ [undefined_msg method]
  else errs.

Definition check_calls (h : HashOrder) (defs : pyset) (calls : dict pyset)
    (errs : list string) : list string :=
  fold_left
    (fun errs (item : string * pyset) =>
       fold_left (check_method defs) (set_iter h (snd item)) errs)
    calls errs.

Definition validate_method_match (h : HashOrder) (self : matcher)
  : bool * matcher :=
  let calls := extract_method_calls self in
  let defs := extract_method_defs self in
  let self := with_errors self (check_calls h defs calls (errors self)) in
  (length (errors self) =? 0, self).

(** *** Rule 2: public methods without tests *)

Definition structural_methods : list string :=
  ["equals"; "hashCode"; "toString"; "getClass"].

Definition all_called_methods (h : HashOrder) (calls : dict pyset) : pyset :=
  fold_left (fun acc methods => set_update acc (set_iter h methods))
            (values calls) [].

(** The local [uncovered] when the rule tests it. *)
Definition uncovered_methods (h : HashOrder) (self : matcher) : pyset :=
  let defs := extract_method_defs self in
  let calls := extract_method_calls self in
  let called := all_called_methods h calls in
  let public_methods :=
    set_comp h (fun m => negb (startswith_underscore m)) defs in
  let uncovered := set_diff h public_methods called in
  set_comp h (fun m => negb (mem m structural_methods)) uncovered.

Definition nonempty (s : pyset) : bool :=
  match s with
  | [] => false
  | _ :: _ => true
  end.

Definition validate_test_coverage (h : HashOrder) (self : matcher)
  : bool * matcher :=
  let uncovered := uncovered_methods h self in
  let self :=
    if nonempty uncovered
    then with_warnings self
           (warnings self ++
            [("Public methods without tests: " ++ repr_set h uncovered)%string])
    else self in
  (true, self).

(** *** Rule 3: declared exceptions without tests *)

Definition thrown_exceptions (impl : string) : pyset :=
  fold_left
    (fun acc exc => set_update acc (split "," (remove_spaces exc)))
    (map (group_str 1) (finditer throws_pattern impl)) [].

Definition tested_exceptions (test : string) : pyset :=
  fold_left set_add (map (group_str 1) (finditer exc_test_pattern test)) [].

(** The local [untested]. *)
Definition untested_exceptions (h : HashOrder) (self : matcher) : pyset :=
  set_diff h (thrown_exceptions (impl_code self))
             (tested_exceptions (test_code self)).

Definition validate_exception_handling (h : HashOrder) (self : matcher)
  : bool * matcher :=
  let untested := untested_exceptions h self in
  let self :=
    if nonempty untested
    then with_warnings self
           (warnings self ++
            [("Exceptions declared but not tested: " ++ repr_set h untested)%string])
    else self in
  (true, self).

(** *** Rule 4: parameter counts *)

(** [len([p for p in params.split(',') if p.strip()])] *)
Definition param_count (params : string) : nat :=
  length (filter (fun p => truthy (strip p)) (split "," params)).

Definition record_sig (sigs : dict string) (m : caps) : dict string :=
  dict_set (group_str 1 m) (group_str 2 m) sigs.

Definition impl_sigs (impl : string) : dict string :=
  fold_left record_sig (finditer impl_pattern impl) [].

Definition test_calls (test : string) : dict string :=
  fold_left record_sig (finditer test_pattern test) [].

Definition arity_msg (method : string) (test_n impl_n : nat) : string :=
  "Method '" ++ method ++ "' called with " ++ str_of_nat test_n
  ++ " params in test, " ++ "but defined with " ++ str_of_nat impl_n
  ++ " in implementation".

(** The body of the comparison loop. *)
Definition check_signature (sigs : dict string) (errs : list string)
    (item : string * string) : list string :=
  let (method, test_params) := item in
  match dict_get method sigs with
  | Some impl_params =>
      let test_param_count := param_count test_params in
      let impl_param_count := param_count impl_params in
      if negb (test_param_count =? impl_param_count)
      then errs ++ [arity_msg method test_param_count impl_param_count]
      else errs
  | None => errs
  end.

Definition check_signatures (sigs calls : dict string) (errs : list string)
  : list string :=
  fold_left (check_signature sigs) calls errs.

Definition validate_signature_match (self : matcher) : bool * matcher :=
  let sigs := impl_sigs (impl_code self) in
  let calls := test_calls (test_code self) in
  let self := with_errors self (check_signatures sigs calls (errors self)) in
  (length (errors self) =? 0, self).

(** *** The report *)

Inductive pyval : Type :=
| VBool (b : bool)
| VStr (s : string)
| VInt (n : nat)
| VList (l : list string).

Definition report := dict pyval.

(** [run_all_checks]: the four rules in order on the one instance, then the
    report.  The report's lists are the lists of the instance as they are
    when the method returns. *)
Definition run_all_checks (h : HashOrder) (self : matcher)
  : (bool * report) * matcher :=
  let self := snd (validate_method_match h self) in
  let self := snd (validate_test_coverage h self) in
  let self := snd (validate_exception_handling h self) in
  let self := snd (validate_signature_match self) in
  let success := length (errors self) =? 0 in
  ((success,
    [("success", VBool success);
     ("errors", VList (errors self));
     ("warnings", VList (warnings self));
     ("error_count", VInt (length (errors self)));
     ("warning_count", VInt (length (warnings self)))]),
   self).

(** ** The driver *)

Inductive exn : Type :=
| KeyError (key : string)
| FileNotFoundError (path : string).

(** [str(e)] of the exception [read_text] raises. *)
Definition str_of_exn (e : exn) : string :=
  match e with
  | KeyError key => repr_str key
  | FileNotFoundError path =>
      "[Errno 2] No such file or directory: " ++ repr_str path
  end.

(** The files that exist, with their text. *)
Definition filesystem := string -> option string.

(** [path.read_text()] *)
Definition read_text (fs : filesystem) (path : string) : string + exn :=
  match fs path with
  | Some text => inl text
  | None => inr (FileNotFoundError path)
  end.

Definition validate_files (h : HashOrder) (fs : filesystem)
    (test_file impl_file : string) : report :=
  match read_text fs test_file with
  | inr e => [("success", VBool false);
              ("error", VStr ("File not found: " ++ str_of_exn e))]
  | inl test =>
      match read_text fs impl_file with
      | inr e => [("success", VBool false);
                  ("error", VStr ("File not found: " ++ str_of_exn e))]
      | inl impl => snd (fst (run_all_checks h (init test impl)))
      end
  end.

(** Printing code: the lines printed so far are the state, an exception
    ends the computation and keeps them.  The symbols outside ASCII in the
    printed literals stand in the strings as their UTF-8 bytes. *)
Definition IO (A : Type) : Type := list string -> list string * (A + exn).

Definition ret {A} (a : A) : IO A := fun out => (out, inl a).

Definition raise {A} (e : exn) : IO A := fun out => (out, inr e).

Definition bind {A B} (m : IO A) (f : A -> IO B) : IO B :=
  fun out =>
    match m out with
    | (out', inl a) => f a out'
    | (out', inr e) => (out', inr e)
    end.

Notation "x <- m ;; f" := (bind m (fun x => f))
  (at level 61, m at next level, right associativity).
Notation "m ;;; f" := (bind m (fun _ => f))
  (at level 61, right associativity).

Definition print (line : string) : IO unit :=
  fun out => (out ++ [line], inl tt).

(** [result[key]] *)
Definition subscript (result : report) (key : string) : IO pyval :=
  match dict_get key result with
  | Some v => ret v
  | None => raise (KeyError key)
  end.

(** Truth value of [result.get(key)]. *)
Definition get_truthy (result : report) (key : string) : bool :=
  match dict_get key result with
  | Some (VBool b) => b
  | Some (VStr s) => truthy s
  | Some (VInt n) => negb (n =? 0)
  | Some (VList l) => nonempty l
  | None => false
  end.

Definition truth (v : pyval) : bool :=
  match v with
  | VBool b => b
  | VStr s => truthy s
  | VInt n => negb (n =? 0)
  | VList l => nonempty l
  end.

Definition items (v : pyval) : list string :=
  match v with
  | VList l => l
  | _ => []
  end.

(** A value inside an f-string. *)
Definition format (v : pyval) : string :=
  match v with
  | VBool true => "True"
  | VBool false => "False"
  | VStr s => s
  | VInt n => str_of_nat n
  | VList l => "[" ++ join ", " (map repr_str l) ++ "]"
  end.

Fixpoint print_each (l : list string) : IO unit :=
  match l with
  | [] => ret tt
  | x :: t => print ("  - " ++ x) ;;; print_each t
  end.

Definition lf : string := String newline "".
Definition rule60 : string := repeat_str "=" 60.

Definition print_block (result : report) (key title : string) : IO unit :=
  if get_truthy result key then
    l <- subscript result key ;;
    print (lf ++ title ++ " (" ++ str_of_nat (length (items l)) ++ "):") ;;;
    l <- subscript result key ;;
    print_each (items l)
  else ret tt.

Definition print_report (result : report) : IO unit :=
  print (lf ++ rule60) ;;;
  print "TEST-IMPLEMENTATION MATCHER REPORT" ;;;
  print rule60 ;;;
  ok <- subscript result "success" ;;
  (if truth ok
   then print "✅ PASSED: All tests match implementation"
   else print "❌ FAILED: Found mismatches") ;;;
  print_block result "errors" "🔴 ERRORS" ;;;
  print_block result "warnings" "⚠️  WARNINGS" ;;;
  print (lf ++ rule60) ;;;
  ec <- subscript result "error_count" ;;
  wc <- subscript result "warning_count" ;;
  print ("Total: " ++ format ec ++ " errors, " ++ format wc ++ " warnings") ;;;
  print (rule60 ++ lf).

(** How the process ends: [sys.exit(code)], or an exception nobody caught,
    after which the interpreter prints a traceback and exits with status 1. *)
Inductive outcome : Type :=
| Exit (code : nat)
| Unhandled (e : exn).

Definition exit_status (o : outcome) : nat :=
  match o with
  | Exit code => code
  | Unhandled _ => 1
  end.

(** The [__main__] block; [argv] is [sys.argv], and a path is the argument
    string as given. *)
Definition main (h : HashOrder) (fs : filesystem) (argv : list string)
  : list string * outcome :=
  match argv with
  | _ :: test_file :: impl_file :: _ =>
      let result := validate_files h fs test_file impl_file in
      match print_report result [] with
      | (out, inr e) => (out, Unhandled e)
      | (out, inl _) =>
          match subscript result "success" out with
          | (out', inr e) => (out', Unhandled e)
          | (out', inl ok) => (out', Exit (if truth ok then 0 else 1))
          end
      end
  | _ =>
      (["Usage: python test_impl_matcher.py <test_file> <impl_file>"], Exit 1)
  end.

(** ** Running the model *)

Definition perm_refl_order : HashOrder :=
  {| set_iter := fun s => s; set_iter_perm := fun s => Permutation_refl s |}.

Definition perm_rev_order : HashOrder :=
  {| set_iter := fun s => rev s;
     set_iter_perm := fun s => Permutation_sym (Permutation_rev s) |}.

Definition rotate (s : pyset) : list string :=
  match s with
  | [] => []
  | x :: t => t ++ [x]
  end.

Definition perm_rot_order : HashOrder :=
  {| set_iter := rotate;
     set_iter_perm := fun s =>
       match s return Permutation (rotate s) s with
       | [] => perm_nil string
       | x :: t => Permutation_sym (Permutation_cons_append t x)
       end |}.

Definition report_of (h : HashOrder) (test impl : string) : report :=
  snd (fst (run_all_checks h (init test impl))).

(** A file system given by a table of paths and texts. *)
Definition fs_of (files : dict string) : filesystem :=
  fun path => dict_get path files.

(** ** What each rule appends on one call *)

Definition undefined_method_errors (h : HashOrder) (self : matcher)
  : list string :=
  skipn (length (errors self)) (errors (snd (validate_method_match h self))).

Definition arity_errors (self : matcher) : list string :=
  skipn (length (errors self)) (errors (snd (validate_signature_match self))).

Definition coverage_warnings (h : HashOrder) (self : matcher) : list string :=
  skipn (length (warnings self))
        (warnings (snd (validate_test_coverage h self))).

Definition exception_warnings (h : HashOrder) (self : matcher) : list string :=
  skipn (length (warnings self))
        (warnings (snd (validate_exception_handling h self))).

(** The (receiver, method) pairs a call table holds. *)
Definition called_pairs (calls : dict pyset) : list (string * string) :=
  flat_map (fun item : string * pyset => map (pair (fst item)) (snd item)) calls.

(** Neither a helper name nor a defined one. *)
Definition is_undefined (defs : pyset) (method : string) : bool :=
  negb (mem method common_helpers) && negb (mem method defs).

Definition undefined_pair (defs : pyset) (p : string * string) : bool :=
  is_undefined defs (snd p).

(** The error a pair yields. *)
Definition pair_msg (p : string * string) : string := undefined_msg (snd p).

(** A call table as the extraction loop keeps it. *)
Definition wf_calls (calls : dict pyset) : Prop :=
  NoDup (keys calls) /\ forall obj methods, In (obj, methods) calls -> NoDup methods.

(** Two instances over the same pair of texts. *)
Definition same_code (a b : matcher) : Prop :=
  test_code a = test_code b /\ impl_code a = impl_code b.

(** * Properties *)

(** ** The model on small inputs *)

Example call_pattern_ex :
  map groups12 (finditer call_pattern "svc.foo (a); repo.bar(x.y(1))")
  = [("svc", "foo"); ("repo", "bar"); ("x", "y")].
Proof. vm_compute. reflexivity. Qed.

Example test_pattern_ex :
  map groups12 (finditer test_pattern "svc.foo(bar(x), y); a.b()")
  = [("foo", "bar(x"); ("b", "")].
Proof. vm_compute. reflexivity. Qed.

Example throws_pattern_ex :
  map (group_str 1) (finditer throws_pattern "fun f() throws A , B, C {")
  = ["A , B, C"].
Proof. vm_compute. reflexivity. Qed.

Example split_ex : split "," "a, b,,c" = ["a"; " b"; ""; "c"].
Proof. reflexivity. Qed.

Example split_empty_ex : split "," "" = [""].
Proof. reflexivity. Qed.

Example strip_ex : strip "  a b  " = "a b".
Proof. reflexivity. Qed.

Example repr_str_ex : repr_str "NotFoundError" = "'NotFoundError'".
Proof. reflexivity. Qed.

Example str_of_nat_ex : map str_of_nat [0; 7; 42] = ["0"; "7"; "42"].
Proof. reflexivity. Qed.


(** ** Lists, sets and dictionaries *)

Section Containers.

Lemma mem_In (x : string) (s : list string) : mem x s = true <-> In x s.
Proof.
  unfold mem. rewrite existsb_exists. split.
  - intros [y [Hy Heq]]. apply String.eqb_eq in Heq. now subst.
  - intros H. exists x. split; [assumption | apply String.eqb_refl].
Qed.

Lemma mem_false (x : string) (s : list string) : mem x s = false <-> ~ In x s.
Proof.
  rewrite <- mem_In. destruct (mem x s); split; congruence.
Qed.

Lemma set_add_In (s : pyset) (x y : string) :
  In y (set_add s x) <-> In y s \/ y = x.
Proof.
  unfold set_add. destruct (mem x s) eqn:E.
  - apply mem_In in E. split; [tauto | intros [H | ->]; assumption].
  - rewrite in_app_iff. simpl. intuition.
Qed.

Lemma set_add_NoDup (s : pyset) (x : string) :
  NoDup s -> NoDup (set_add s x).
Proof.
  intros H. unfold set_add. destruct (mem x s) eqn:E; [assumption |].
  apply mem_false in E.
  apply NoDup_rev in H. rewrite <- (rev_involutive (s ++ [x])).
  apply NoDup_rev. rewrite rev_app_distr. simpl. constructor.
  - now rewrite <- in_rev.
  - assumption.
Qed.

Lemma set_update_In (xs : list string) (s : pyset) (y : string) :
  In y (set_update s xs) <-> In y s \/ In y xs.
Proof.
  unfold set_update. revert s. induction xs as [| x xs IH]; intros s; simpl.
  - tauto.
  - rewrite IH, set_add_In. intuition.
Qed.

Lemma set_update_NoDup (xs : list string) (s : pyset) :
  NoDup s -> NoDup (set_update s xs).
Proof.
  unfold set_update. revert s. induction xs as [| x xs IH]; intros s H; simpl.
  - assumption.
  - apply IH, set_add_NoDup, H.
Qed.

Lemma set_iter_In (h : HashOrder) (s : pyset) (x : string) :
  In x (set_iter h s) <-> In x s.
Proof.
  split; apply Permutation_in;
    [apply set_iter_perm | apply Permutation_sym, set_iter_perm].
Qed.

Lemma set_comp_In (h : HashOrder) (p : string -> bool) (s : pyset) (x : string) :
  In x (set_comp h p s) <-> In x s /\ p x = true.
Proof.
  unfold set_comp. rewrite set_update_In, filter_In, set_iter_In. simpl. tauto.
Qed.

Lemma set_comp_NoDup (h : HashOrder) (p : string -> bool) (s : pyset) :
  NoDup (set_comp h p s).
Proof. apply set_update_NoDup. constructor. Qed.

Lemma set_diff_In (h : HashOrder) (a b : pyset) (x : string) :
  In x (set_diff h a b) <-> In x a /\ ~ In x b.
Proof.
  unfold set_diff. rewrite set_update_In, filter_In, set_iter_In. simpl.
  rewrite negb_true_iff, mem_false. tauto.
Qed.

Lemma set_diff_NoDup (h : HashOrder) (a b : pyset) : NoDup (set_diff h a b).
Proof. apply set_update_NoDup. constructor. Qed.

(** A set with one element is iterated in one way only. *)
Lemma set_iter_singleton (h : HashOrder) (x : string) : set_iter h [x] = [x].
Proof.
  apply Permutation_length_1_inv, Permutation_sym, set_iter_perm.
Qed.

Lemma nonempty_perm (s t : pyset) :
  Permutation s t -> nonempty s = nonempty t.
Proof.
  intros H. apply Permutation_length in H.
  destruct s, t; simpl in *; congruence.
Qed.

Lemma filter_perm {A} (p : A -> bool) (l l' : list A) :
  Permutation l l' -> Permutation (filter p l) (filter p l').
Proof.
  induction 1; simpl.
  - constructor.
  - destruct (p x); [now constructor | assumption].
  - destruct (p x), (p y); try apply Permutation_refl.
    + apply perm_swap.
  - eapply Permutation_trans; eassumption.
Qed.

Context {V : Type}.

Lemma dict_get_In (k : string) (v : V) (d : dict V) :
  dict_get k d = Some v -> In (k, v) d.
Proof.
  induction d as [| [k' v'] d IH]; simpl; [discriminate |].
  destruct (String.eqb k k') eqn:E.
  - apply String.eqb_eq in E. intros [= ->]. subst. now left.
  - intros H. right. now apply IH.
Qed.

Lemma In_dict_get (k : string) (v : V) (d : dict V) :
  NoDup (keys d) -> In (k, v) d -> dict_get k d = Some v.
Proof.
  induction d as [| [k' v'] d IH]; simpl; [tauto |].
  intros Hnd [H | H].
  - injection H as -> ->. now rewrite String.eqb_refl.
  - inversion Hnd as [| ? ? Hnotin Hnd']; subst.
    destruct (String.eqb k k') eqn:E.
    + apply String.eqb_eq in E. subst. exfalso. apply Hnotin.
      change (In (fst (k', v)) (map fst d)). now apply in_map.
    + now apply IH.
Qed.

Lemma dict_set_get (k k' : string) (v : V) (d : dict V) :
  dict_get k' (dict_set k v d)
  = if String.eqb k' k then Some v else dict_get k' d.
Proof.
  induction d as [| [k0 v0] d IH]; simpl.
  - destruct (String.eqb k' k); reflexivity.
  - destruct (String.eqb k k0) eqn:E; simpl.
    + apply String.eqb_eq in E. subst.
      destruct (String.eqb k' k0); reflexivity.
    + destruct (String.eqb k' k0) eqn:E'.
      * apply String.eqb_eq in E'. subst.
        rewrite String.eqb_sym, E. reflexivity.
      * apply IH.
Qed.

Lemma dict_set_keys_In (k k' : string) (v : V) (d : dict V) :
  In k' (keys (dict_set k v d)) <-> k' = k \/ In k' (keys d).
Proof.
  induction d as [| [k0 v0] d IH]; simpl.
  - intuition.
  - destruct (String.eqb k k0) eqn:E; simpl.
    + apply String.eqb_eq in E. subst. intuition.
    + rewrite IH. intuition.
Qed.

Lemma dict_set_keys_NoDup (k : string) (v : V) (d : dict V) :
  NoDup (keys d) -> NoDup (keys (dict_set k v d)).
Proof.
  induction d as [| [k0 v0] d IH]; simpl; intros H.
  - constructor; [intros [] | constructor].
  - inversion H as [| ? ? Hnotin Hnd]; subst.
    destruct (String.eqb k k0) eqn:E; simpl.
    + apply String.eqb_eq in E. subst. now constructor.
    + apply String.eqb_neq in E. constructor.
      * fold (keys (dict_set k v d)). rewrite dict_set_keys_In. intuition.
      * now apply IH.
Qed.

End Containers.

(** ** Every rule only appends *)

Section Appending.

Lemma fold_left_append {A B} (f : list B -> A -> list B) (g : A -> list B)
    (l : list A) (acc : list B) :
  (forall acc x, f acc x = acc ++ g x) ->
  fold_left f l acc = acc ++ flat_map g l.
Proof.
  intros Hf. revert acc. induction l as [| x l IH]; intros acc; simpl.
  - now rewrite app_nil_r.
  - rewrite IH, Hf, <- app_assoc. reflexivity.
Qed.

Lemma skipn_app_exact {A} (l r : list A) : skipn (length l) (l ++ r) = r.
Proof. induction l; simpl; auto. Qed.

Lemma check_method_app (defs : pyset) (errs : list string) (method : string) :
  check_method defs errs method = errs ++ check_method defs [] method.
Proof.
  unfold check_method.
  destruct (mem method common_helpers); [now rewrite app_nil_r |].
  destruct (negb (mem method defs)); [reflexivity | now rewrite app_nil_r].
Qed.

Lemma check_calls_flat (h : HashOrder) (defs : pyset) (calls : dict pyset)
    (errs : list string) :
  check_calls h defs calls errs
  = errs ++ flat_map (fun item : string * pyset =>
                        flat_map (check_method defs []) (set_iter h (snd item)))
                     calls.
Proof.
  unfold check_calls. apply fold_left_append. intros acc item.
  apply fold_left_append. intros. apply check_method_app.
Qed.

Lemma check_signature_app (sigs : dict string) (errs : list string)
    (item : string * string) :
  check_signature sigs errs item = errs ++ check_signature sigs [] item.
Proof.
  unfold check_signature. destruct item as [method test_params].
  destruct (dict_get method sigs); [| now rewrite app_nil_r].
  destruct (negb _); [reflexivity | now rewrite app_nil_r].
Qed.

Lemma check_signatures_flat (sigs calls : dict string) (errs : list string) :
  check_signatures sigs calls errs
  = errs ++ flat_map (check_signature sigs []) calls.
Proof.
  unfold check_signatures. apply fold_left_append. intros.
  apply check_signature_app.
Qed.

Variable h : HashOrder.

Lemma method_match_errors (self : matcher) :
  errors (snd (validate_method_match h self))
  = errors self ++ undefined_method_errors h self.
Proof.
  unfold undefined_method_errors. simpl.
  rewrite check_calls_flat, skipn_app_exact. reflexivity.
Qed.

Lemma signature_match_errors (self : matcher) :
  errors (snd (validate_signature_match self))
  = errors self ++ arity_errors self.
Proof.
  unfold arity_errors. simpl.
  rewrite check_signatures_flat, skipn_app_exact. reflexivity.
Qed.

Lemma coverage_warnings_eq (self : matcher) :
  coverage_warnings h self
  = if nonempty (uncovered_methods h self)
    then [("Public methods without tests: "
           ++ repr_set h (uncovered_methods h self))%string]
    else [].
Proof.
  unfold coverage_warnings, validate_test_coverage. simpl.
  destruct (nonempty (uncovered_methods h self)); simpl.
  - apply skipn_app_exact.
  - rewrite <- (app_nil_r (warnings self)) at 2. apply skipn_app_exact.
Qed.

Lemma exception_warnings_eq (self : matcher) :
  exception_warnings h self
  = if nonempty (untested_exceptions h self)
    then [("Exceptions declared but not tested: "
           ++ repr_set h (untested_exceptions h self))%string]
    else [].
Proof.
  unfold exception_warnings, validate_exception_handling. simpl.
  destruct (nonempty (untested_exceptions h self)); simpl.
  - apply skipn_app_exact.
  - rewrite <- (app_nil_r (warnings self)) at 2. apply skipn_app_exact.
Qed.

Lemma test_coverage_warnings (self : matcher) :
  warnings (snd (validate_test_coverage h self))
  = warnings self ++ coverage_warnings h self.
Proof.
  rewrite coverage_warnings_eq. unfold validate_test_coverage. simpl.
  destruct (nonempty (uncovered_methods h self)); simpl;
    [reflexivity | now rewrite app_nil_r].
Qed.

Lemma exception_handling_warnings (self : matcher) :
  warnings (snd (validate_exception_handling h self))
  = warnings self ++ exception_warnings h self.
Proof.
  rewrite exception_warnings_eq. unfold validate_exception_handling. simpl.
  destruct (nonempty (untested_exceptions h self)); simpl;
    [reflexivity | now rewrite app_nil_r].
Qed.

(** The findings of a rule depend on the two texts only, not on what the
    instance has accumulated. *)
Lemma undefined_method_errors_code (a b : matcher) :
  same_code a b -> undefined_method_errors h a = undefined_method_errors h b.
Proof.
  intros [Ht Hi]. unfold undefined_method_errors. simpl.
  rewrite !check_calls_flat, !skipn_app_exact.
  unfold extract_method_defs, extract_method_calls. now rewrite Ht, Hi.
Qed.

Lemma arity_errors_code (a b : matcher) :
  same_code a b -> arity_errors a = arity_errors b.
Proof.
  intros [Ht Hi]. unfold arity_errors. simpl.
  rewrite !check_signatures_flat, !skipn_app_exact. now rewrite Ht, Hi.
Qed.

Lemma uncovered_methods_code (a b : matcher) :
  same_code a b -> uncovered_methods h a = uncovered_methods h b.
Proof.
  intros [Ht Hi]. unfold uncovered_methods, extract_method_defs,
    extract_method_calls. now rewrite Ht, Hi.
Qed.

Lemma coverage_warnings_code (a b : matcher) :
  same_code a b -> coverage_warnings h a = coverage_warnings h b.
Proof.
  intros H. rewrite !coverage_warnings_eq.
  now rewrite (uncovered_methods_code a b H).
Qed.

Lemma exception_warnings_code (a b : matcher) :
  same_code a b -> exception_warnings h a = exception_warnings h b.
Proof.
  intros [Ht Hi]. rewrite !exception_warnings_eq.
  unfold untested_exceptions. now rewrite Ht, Hi.
Qed.

(** The instance after [run_all_checks]: the findings of the four rules, in
    rule order, after what was there. *)
Lemma run_all_checks_state (self : matcher) :
  let self' := snd (run_all_checks h self) in
  test_code self' = test_code self /\
  impl_code self' = impl_code self /\
  errors self' = errors self ++ undefined_method_errors h self ++ arity_errors self /\
  warnings self'
  = warnings self ++ coverage_warnings h self ++ exception_warnings h self.
Proof.
  set (m1 := snd (validate_method_match h self)).
  set (m2 := snd (validate_test_coverage h m1)).
  set (m3 := snd (validate_exception_handling h m2)).
  set (m4 := snd (validate_signature_match m3)).
  assert (H1 : same_code m1 self) by (split; reflexivity).
  assert (H2 : same_code m2 self).
  { unfold m2, validate_test_coverage. simpl.
    destruct (nonempty _); split; reflexivity. }
  assert (H3 : same_code m3 self).
  { unfold m3, validate_exception_handling. simpl.
    destruct (nonempty _); simpl; exact H2. }
  assert (E2 : errors m2 = errors m1).
  { unfold m2, validate_test_coverage. simpl. destruct (nonempty _); reflexivity. }
  assert (E3 : errors m3 = errors m2).
  { unfold m3, validate_exception_handling. simpl.
    destruct (nonempty _); reflexivity. }
  change (snd (run_all_checks h self)) with m4. cbv zeta.
  assert (W4 : warnings m4 = warnings m3) by reflexivity.
  repeat split.
  - apply H3.
  - apply H3.
  - unfold m4. rewrite signature_match_errors, E3, E2.
    unfold m1 at 1. rewrite method_match_errors.
    rewrite (arity_errors_code m3 self H3), <- app_assoc. reflexivity.
  - rewrite W4. unfold m3 at 1. rewrite exception_handling_warnings.
    unfold m2 at 1. rewrite test_coverage_warnings.
    rewrite (exception_warnings_code m2 self H2).
    rewrite (coverage_warnings_code m1 self H1), <- app_assoc. reflexivity.
Qed.

Lemma run_all_checks_report (self : matcher) :
  let self' := snd (run_all_checks h self) in
  fst (run_all_checks h self)
  = (length (errors self') =? 0,
     [("success", VBool (length (errors self') =? 0));
      ("errors", VList (errors self'));
      ("warnings", VList (warnings self'));
      ("error_count", VInt (length (errors self')));
      ("warning_count", VInt (length (warnings self')))]).
Proof. reflexivity. Qed.

Lemma report_error_count (self : matcher) :
  dict_get "error_count" (snd (fst (run_all_checks h self)))
  = Some (VInt (length (errors (snd (run_all_checks h self))))).
Proof. reflexivity. Qed.

Lemma report_warning_count (self : matcher) :
  dict_get "warning_count" (snd (fst (run_all_checks h self)))
  = Some (VInt (length (warnings (snd (run_all_checks h self))))).
Proof. reflexivity. Qed.

Lemma run_all_checks_success (self : matcher) :
  fst (fst (run_all_checks h self))
  = (length (errors (snd (run_all_checks h self))) =? 0).
Proof. reflexivity. Qed.

End Appending.

(** ** The driver on a complete report *)

Section Driver.

Lemma bind_returns {A B} (m : IO A) (f : A -> IO B) (out out' : list string)
    (a : A) :
  m out = (out', inl a) -> bind m f out = f a out'.
Proof. intros H. unfold bind. now rewrite H. Qed.

Lemma print_each_returns (l : list string) (out : list string) :
  print_each l out
  = (out ++ map (fun x => ("  - " ++ x)%string) l, inl tt).
Proof.
  revert out. induction l as [| x l IH]; intros out; simpl.
  - unfold ret. now rewrite app_nil_r.
  - rewrite (bind_returns _ _ out (out ++ [("  - " ++ x)%string]) tt eq_refl).
    rewrite IH, <- app_assoc. reflexivity.
Qed.

Lemma print_block_returns (result : report) (key title : string)
    (l : list string) (out : list string) :
  dict_get key result = Some (VList l) ->
  exists lines, print_block result key title out = (out ++ lines, inl tt).
Proof.
  intros Hk. unfold print_block, get_truthy, subscript. rewrite Hk.
  destruct (nonempty l).
  - unfold bind, ret, print. simpl. rewrite print_each_returns.
    rewrite <- app_assoc. eauto.
  - exists []. unfold ret. now rewrite app_nil_r.
Qed.

(** A report with the five keys of [run_all_checks] is printed to the end. *)
Lemma print_report_returns (b : bool) (es wns : list string) (ec wc : nat) :
  let result := [("success", VBool b); ("errors", VList es);
                 ("warnings", VList wns); ("error_count", VInt ec);
                 ("warning_count", VInt wc)] in
  exists out, print_report result [] = (out, inl tt).
Proof.
  intros result. unfold print_report. destruct b.
  all: do 5 (erewrite bind_returns by reflexivity).
  all:
  match goal with
  | |- context [bind (print_block _ _ _) _ ?o] =>
      destruct (print_block_returns result "errors" "🔴 ERRORS" es o eq_refl)
        as [l1 H1]
  end.
  all: erewrite bind_returns by exact H1.
  all: match goal with
  | |- context [bind (print_block _ _ _) _ ?o] =>
      destruct (print_block_returns result "warnings" "⚠️  WARNINGS" wns o eq_refl)
        as [l2 H2]
  end.
  all: erewrite bind_returns by exact H2.
  all: do 4 (erewrite bind_returns by reflexivity).
  all: unfold print; eauto.
Qed.

Lemma validate_files_found (h : HashOrder) (fs : filesystem)
    (test_file impl_file test impl : string) :
  fs test_file = Some test -> fs impl_file = Some impl ->
  validate_files h fs test_file impl_file
  = snd (fst (run_all_checks h (init test impl))).
Proof.
  intros Ht Hi. unfold validate_files, read_text. now rewrite Ht, Hi.
Qed.

Lemma validate_files_missing (h : HashOrder) (fs : filesystem)
    (test_file impl_file : string) :
  fs test_file = None \/ fs impl_file = None ->
  exists path,
    validate_files h fs test_file impl_file
    = [("success", VBool false);
       ("error", VStr ("File not found: "
                       ++ str_of_exn (FileNotFoundError path)))].
Proof.
  unfold validate_files, read_text. intros [H | H].
  - rewrite H. now exists test_file.
  - rewrite H. destruct (fs test_file); [now exists impl_file | now exists test_file].
Qed.

(** The failure result has no [error_count]: the report printer stops with
    a [KeyError] after the rule line that follows the verdict. *)
Lemma print_report_failure_result (msg : string) :
  snd (print_report [("success", VBool false); ("error", VStr msg)] [])
  = inr (KeyError "error_count").
Proof. reflexivity. Qed.

Lemma main_missing_file (h : HashOrder) (fs : filesystem)
    (prog test_file impl_file : string) (rest : list string) :
  fs test_file = None \/ fs impl_file = None ->
  snd (main h fs (prog :: test_file :: impl_file :: rest))
  = Unhandled (KeyError "error_count").
Proof.
  intros H. destruct (validate_files_missing h fs test_file impl_file H)
    as [path Hv].
  unfold main. rewrite Hv. reflexivity.
Qed.

Lemma main_found (h : HashOrder) (fs : filesystem)
    (prog test_file impl_file test impl : string) (rest : list string) :
  fs test_file = Some test -> fs impl_file = Some impl ->
  snd (main h fs (prog :: test_file :: impl_file :: rest))
  = Exit (if length (errors (snd (run_all_checks h (init test impl)))) =? 0
          then 0 else 1).
Proof.
  intros Ht Hi. unfold main.
  rewrite (validate_files_found h fs _ _ _ _ Ht Hi).
  set (self' := snd (run_all_checks h (init test impl))).
  change (snd (fst (run_all_checks h (init test impl))))
    with [("success", VBool (length (errors self') =? 0));
          ("errors", VList (errors self'));
          ("warnings", VList (warnings self'));
          ("error_count", VInt (length (errors self')));
          ("warning_count", VInt (length (warnings self')))].
  destruct (print_report_returns (length (errors self') =? 0) (errors self')
              (warnings self') (length (errors self')) (length (warnings self')))
    as [out Hout].
  cbv zeta in Hout. rewrite Hout. reflexivity.
Qed.

End Driver.

(** ** Verdict, exit code and repeated runs *)

(** C1.  The driver on a path that names no file: [validate_files] does
    return the structured failure result with its message and without any
    report field, but [print_report] then reads [result['error_count']],
    which that result does not have.  The process ends on the unhandled
    [KeyError] (exit status 1 by way of the traceback), not on
    [sys.exit(1)], and the message is never printed. *)
Theorem nonexistent_file_unhandled_key_error :
  let argv := ["test_impl_matcher.py"; "FooTest.kt"; "Foo.kt"] in
  validate_files perm_refl_order (fs_of []) "FooTest.kt" "Foo.kt"
  = [("success", VBool false);
     ("error",
      VStr "File not found: [Errno 2] No such file or directory: 'FooTest.kt'")]
  /\ snd (main perm_refl_order (fs_of []) argv)
     = Unhandled (KeyError "error_count")
  /\ exit_status (snd (main perm_refl_order (fs_of []) argv)) = 1
  /\ fst (main perm_refl_order (fs_of []) argv)
     = [(lf ++ rule60)%string; "TEST-IMPLEMENTATION MATCHER REPORT"; rule60;
        "❌ FAILED: Found mismatches"; (lf ++ rule60)%string].
Proof. vm_compute. repeat split. Qed.

(** C6.  The success flag of a report is [error_count == 0], the exit code
    is 0 exactly when the flag is true and 1 otherwise, and neither depends
    on the warnings: warnings already on the instance change nothing, and a
    run on two readable files exits through [sys.exit] with 0 when there is
    no error and with 1 when there is one, whatever the warnings. *)
Theorem success_and_exit_code_follow_error_count :
  (forall h self,
     let rep := snd (fst (run_all_checks h self)) in
     let n := length (errors (snd (run_all_checks h self))) in
     fst (fst (run_all_checks h self)) = (n =? 0) /\
     dict_get "success" rep = Some (VBool (n =? 0)) /\
     dict_get "error_count" rep = Some (VInt n)) /\
  (forall h self ws,
     fst (fst (run_all_checks h (with_warnings self ws)))
     = fst (fst (run_all_checks h self))) /\
  (forall h fs prog test_file impl_file rest,
     exists b,
       dict_get "success" (validate_files h fs test_file impl_file)
       = Some (VBool b) /\
       exit_status (snd (main h fs (prog :: test_file :: impl_file :: rest)))
       = if b then 0 else 1) /\
  (forall h fs prog test_file impl_file rest test impl,
     fs test_file = Some test -> fs impl_file = Some impl ->
     let rep := validate_files h fs test_file impl_file in
     let n := length (errors (snd (run_all_checks h (init test impl)))) in
     dict_get "error_count" rep = Some (VInt n) /\
     dict_get "success" rep = Some (VBool (n =? 0)) /\
     snd (main h fs (prog :: test_file :: impl_file :: rest))
     = Exit (if n =? 0 then 0 else 1)).
Proof.
  assert (Hfound : forall h fs prog test_file impl_file rest test impl,
     fs test_file = Some test -> fs impl_file = Some impl ->
     let rep := validate_files h fs test_file impl_file in
     let n := length (errors (snd (run_all_checks h (init test impl)))) in
     dict_get "error_count" rep = Some (VInt n) /\
     dict_get "success" rep = Some (VBool (n =? 0)) /\
     snd (main h fs (prog :: test_file :: impl_file :: rest))
     = Exit (if n =? 0 then 0 else 1)).
  { intros h fs prog test_file impl_file rest test impl Ht Hi. cbv zeta.
    rewrite (validate_files_found h fs _ _ _ _ Ht Hi).
    repeat split; try reflexivity.
    now apply main_found. }
  split; [| split; [| split]].
  - intros h self. repeat split.
  - intros h self ws. rewrite !run_all_checks_success.
    destruct (run_all_checks_state h self) as (_ & _ & He & _).
    destruct (run_all_checks_state h (with_warnings self ws)) as (_ & _ & He' & _).
    rewrite He, He'.
    rewrite (undefined_method_errors_code h (with_warnings self ws) self),
            (arity_errors_code (with_warnings self ws) self);
      [reflexivity | split; reflexivity | split; reflexivity].
  - intros h fs prog test_file impl_file rest.
    destruct (fs test_file) as [test |] eqn:Ht.
    + destruct (fs impl_file) as [impl |] eqn:Hi.
      * destruct (Hfound h fs prog test_file impl_file rest test impl Ht Hi)
          as (_ & Hs & Hm).
        eexists. split; [exact Hs |]. rewrite Hm. simpl.
        destruct (_ =? 0); reflexivity.
      * exists false. rewrite (main_missing_file h fs _ _ _ _ (or_intror Hi)).
        destruct (validate_files_missing h fs test_file impl_file (or_intror Hi))
          as [path Hv].
        rewrite Hv. split; reflexivity.
    + exists false. rewrite (main_missing_file h fs _ _ _ _ (or_introl Ht)).
      destruct (validate_files_missing h fs test_file impl_file (or_introl Ht))
        as [path Hv].
      rewrite Hv. split; reflexivity.
  - exact Hfound.
Qed.

Lemma success_and_exit_code_witness :
  snd (main perm_refl_order
         (fs_of [("FooTest.kt", "svc.foo()"); ("Foo.kt", "fun bar() fun baz()")])
         ["test_impl_matcher.py"; "FooTest.kt"; "Foo.kt"]) = Exit 1
  /\ snd (main perm_refl_order
         (fs_of [("FooTest.kt", "svc.bar()"); ("Foo.kt", "fun bar() fun baz()")])
         ["test_impl_matcher.py"; "FooTest.kt"; "Foo.kt"]) = Exit 0.
Proof.
  destruct success_and_exit_code_follow_error_count as (_ & _ & _ & H).
  split.
  - destruct (H perm_refl_order
               (fs_of [("FooTest.kt", "svc.foo()"); ("Foo.kt", "fun bar() fun baz()")])
               "test_impl_matcher.py" "FooTest.kt" "Foo.kt" []
               "svc.foo()" "fun bar() fun baz()" eq_refl eq_refl) as (_ & _ & Hm).
    rewrite Hm. vm_compute. reflexivity.
  - destruct (H perm_refl_order
               (fs_of [("FooTest.kt", "svc.bar()"); ("Foo.kt", "fun bar() fun baz()")])
               "test_impl_matcher.py" "FooTest.kt" "Foo.kt" []
               "svc.bar()" "fun bar() fun baz()" eq_refl eq_refl) as (_ & _ & Hm).
    rewrite Hm. vm_compute. reflexivity.
Defined.


(** ** Rule 4: the arity comparison *)

Section Arity.


Lemma record_sigs_keys_NoDup (ms : list caps) (d : dict string) :
  NoDup (keys d) -> NoDup (keys (fold_left record_sig ms d)).
Proof.
  revert d. induction ms as [| m ms IH]; intros d H; simpl.
  - assumption.
  - apply IH. unfold record_sig. now apply dict_set_keys_NoDup.
Qed.


Lemma test_calls_keys_NoDup (test : string) : NoDup (keys (test_calls test)).
Proof. apply record_sigs_keys_NoDup. constructor. Qed.

Lemma arity_errors_flat (self : matcher) :
  arity_errors self
  = flat_map (check_signature (impl_sigs (impl_code self)) [])
             (test_calls (test_code self)).
Proof.
  unfold arity_errors. simpl.
  now rewrite check_signatures_flat, skipn_app_exact.
Qed.

End Arity.

(** The arity rule over its two tables: it takes each method name of
    [test_calls] once; when
    the name has a signature in [impl_sigs] it compares the two counts, each
    the number of comma-separated segments of the captured text that are
    not blank, and appends exactly one error naming both counts when they
    differ and nothing when they agree.  [obj.foo(a, b)] against
    [fun foo(x, y, z)] gives the one error with 2 and 3; against
    [fun foo(x, y)] the rule gives no error. *)
Theorem arity_rule_one_error_per_mismatch :
  (forall self,
     arity_errors self
     = flat_map (check_signature (impl_sigs (impl_code self)) [])
                (test_calls (test_code self))
     /\ NoDup (keys (test_calls (test_code self)))) /\
  (forall sigs method test_params,
     check_signature sigs [] (method, test_params)
     = match dict_get method sigs with
       | Some impl_params =>
           if param_count test_params =? param_count impl_params then []
           else [arity_msg method (param_count test_params)
                           (param_count impl_params)]
       | None => []
       end) /\
  (forall params,
     param_count params
     = length (filter (fun p => negb (String.eqb (strip p) ""))
                      (split "," params))) /\
  arity_errors (init "obj.foo(a, b)" "fun foo(x, y, z)")
  = ["Method 'foo' called with 2 params in test, but defined with 3 in implementation"]
  /\ arity_errors (init "obj.foo(a, b)" "fun foo(x, y)") = [].
Proof.
  split; [| split; [| split; [| split]]].
  - intros self. split; [apply arity_errors_flat | apply test_calls_keys_NoDup].
  - intros sigs method test_params. unfold check_signature.
    destruct (dict_get method sigs) as [impl_params |]; [| reflexivity].
    destruct (param_count test_params =? param_count impl_params); reflexivity.
  - intros params. unfold param_count. f_equal. apply filter_ext.
    intros p. destruct (strip p); reflexivity.
  - vm_compute. reflexivity.
  - vm_compute. reflexivity.
Qed.



(** ** The call table *)

Section CallTable.

Lemma record_call_get (d : dict pyset) (obj method obj' : string) :
  dict_get obj' (record_call d (obj, method))
  = if String.eqb obj' obj
    then Some (set_add (match dict_get obj d with
                        | Some methods => methods
                        | None => []
                        end) method)
    else dict_get obj' d.
Proof.
  unfold record_call, dict_mem.
  destruct (dict_get obj d) as [methods |] eqn:E.
  - rewrite E, dict_set_get. reflexivity.
  - rewrite dict_set_get, String.eqb_refl, !dict_set_get.
    destruct (String.eqb obj' obj); reflexivity.
Qed.

Lemma record_call_keys_NoDup (d : dict pyset) (site : string * string) :
  NoDup (keys d) -> NoDup (keys (record_call d site)).
Proof.
  intros H. destruct site as [obj method]. unfold record_call, dict_mem.
  destruct (dict_get obj d) as [methods |] eqn:E.
  - rewrite E. now apply dict_set_keys_NoDup.
  - rewrite dict_set_get, String.eqb_refl.
    now apply dict_set_keys_NoDup, dict_set_keys_NoDup.
Qed.

Lemma record_call_wf (d : dict pyset) (site : string * string) :
  wf_calls d -> wf_calls (record_call d site).
Proof.
  intros [Hk Hs]. split; [now apply record_call_keys_NoDup |].
  intros obj' methods' Hin. destruct site as [obj method].
  apply In_dict_get in Hin; [| now apply record_call_keys_NoDup].
  rewrite record_call_get in Hin.
  destruct (String.eqb obj' obj).
  - injection Hin as <-. apply set_add_NoDup.
    destruct (dict_get obj d) as [methods |] eqn:E; [| constructor].
    eapply Hs, dict_get_In, E.
  - eapply Hs, dict_get_In, Hin.
Qed.

Lemma calls_of_sites_wf_from (sites : list (string * string)) (d : dict pyset) :
  wf_calls d -> wf_calls (fold_left record_call sites d).
Proof.
  revert d. induction sites as [| site sites IH]; intros d H; simpl.
  - assumption.
  - now apply IH, record_call_wf.
Qed.

Lemma calls_of_sites_wf (sites : list (string * string)) :
  wf_calls (calls_of_sites sites).
Proof.
  apply calls_of_sites_wf_from. split; [constructor | intros ? ? []].
Qed.

Lemma called_pairs_In (d : dict pyset) (obj method : string) :
  In (obj, method) (called_pairs d)
  <-> exists methods, In (obj, methods) d /\ In method methods.
Proof.
  unfold called_pairs. rewrite in_flat_map. split.
  - intros [[o ms] [Hin Hm]]. simpl in Hm. apply in_map_iff in Hm.
    destruct Hm as [m [[= <- <-] Hm]]. now exists ms.
  - intros [ms [Hin Hm]]. exists (obj, ms). split; [assumption |].
    simpl. now apply in_map.
Qed.

Lemma called_pairs_get (d : dict pyset) (obj method : string) :
  NoDup (keys d) ->
  In (obj, method) (called_pairs d)
  <-> exists methods, dict_get obj d = Some methods /\ In method methods.
Proof.
  intros Hk. rewrite called_pairs_In. split; intros [ms [H Hm]]; exists ms.
  - split; [now apply In_dict_get | assumption].
  - split; [now apply dict_get_In | assumption].
Qed.

Lemma map_pair_NoDup (obj : string) (methods : list string) :
  NoDup methods -> NoDup (map (pair obj) methods).
Proof.
  induction 1 as [| m ms Hnotin Hnd IH]; simpl; constructor.
  - rewrite in_map_iff. intros [m' [[= ->] Hin]]. contradiction.
  - assumption.
Qed.

Lemma called_pairs_NoDup (d : dict pyset) :
  wf_calls d -> NoDup (called_pairs d).
Proof.
  intros [Hk Hs]. induction d as [| [obj methods] d IH]; simpl.
  - constructor.
  - inversion Hk as [| ? ? Hnotin Hk']; subst. apply NoDup_app.
    + apply map_pair_NoDup, (Hs obj). now left.
    + apply IH; [assumption |]. intros o ms Hin. apply (Hs o). now right.
    + intros [o m] H1 H2. apply in_map_iff in H1.
      destruct H1 as [m' [[= <- <-] _]].
      apply called_pairs_In in H2. destruct H2 as [ms [Hin _]].
      apply Hnotin. change (In (fst (obj, ms)) (map fst d)). now apply in_map.
Qed.

Lemma record_call_pairs (d : dict pyset) (site p : string * string) :
  NoDup (keys d) ->
  In p (called_pairs (record_call d site)) <-> p = site \/ In p (called_pairs d).
Proof.
  intros Hk. destruct site as [obj method], p as [obj' method'].
  rewrite !called_pairs_get by (try apply record_call_keys_NoDup; assumption).
  split.
  - intros [ms [Hg Hm]]. rewrite record_call_get in Hg.
    destruct (String.eqb obj' obj) eqn:E.
    + apply String.eqb_eq in E. subst obj'. injection Hg as <-.
      apply set_add_In in Hm. destruct Hm as [Hm | ->]; [| now left].
      right. destruct (dict_get obj d) as [ms |]; [| destruct Hm].
      now exists ms.
    + right. now exists ms.
  - intros [[= -> ->] | [ms [Hg Hm]]].
    + eexists. rewrite record_call_get, String.eqb_refl. split; [reflexivity |].
      apply set_add_In. now right.
    + rewrite record_call_get. destruct (String.eqb obj' obj) eqn:E.
      * apply String.eqb_eq in E. subst obj'. rewrite Hg.
        eexists. split; [reflexivity |]. apply set_add_In. now left.
      * now exists ms.
Qed.

Lemma calls_of_sites_pairs_from (sites : list (string * string))
    (d : dict pyset) (p : string * string) :
  NoDup (keys d) ->
  In p (called_pairs (fold_left record_call sites d))
  <-> In p sites \/ In p (called_pairs d).
Proof.
  revert d. induction sites as [| site sites IH]; intros d Hk; simpl.
  - tauto.
  - rewrite IH by now apply record_call_keys_NoDup.
    rewrite record_call_pairs by assumption. intuition.
Qed.

(** The table holds exactly the pairs that occur as call sites, each once. *)
Lemma calls_of_sites_pairs (sites : list (string * string))
    (p : string * string) :
  In p (called_pairs (calls_of_sites sites)) <-> In p sites.
Proof.
  unfold calls_of_sites. rewrite calls_of_sites_pairs_from by constructor.
  simpl. tauto.
Qed.

End CallTable.

(** ** Rule 1: undefined methods *)

Section UndefinedMethods.

Variable h : HashOrder.
Variable defs : pyset.

Lemma check_method_nil (method : string) :
  check_method defs [] method
  = if is_undefined defs method then [undefined_msg method] else [].
Proof.
  unfold check_method, is_undefined.
  destruct (mem method common_helpers); [reflexivity |].
  destruct (mem method defs); reflexivity.
Qed.

Lemma check_methods_filter (methods : list string) :
  flat_map (check_method defs []) methods
  = map undefined_msg (filter (is_undefined defs) methods).
Proof.
  induction methods as [| m ms IH]; simpl; [reflexivity |].
  rewrite check_method_nil, IH. destruct (is_undefined defs m); reflexivity.
Qed.

Lemma pairs_of_receiver (obj : string) (methods : list string) :
  map pair_msg (filter (undefined_pair defs) (map (pair obj) methods))
  = map undefined_msg (filter (is_undefined defs) methods).
Proof.
  induction methods as [| m ms IH]; simpl; [reflexivity |].
  unfold undefined_pair at 1. simpl.
  destruct (is_undefined defs m); simpl; now rewrite IH.
Qed.

(** The errors of the rule: one per pair of the table whose method is
    neither a helper nor defined, receivers in insertion order and the
    methods of a receiver in the order the set yields them. *)
Lemma check_calls_perm (calls : dict pyset) :
  Permutation (check_calls h defs calls [])
              (map pair_msg (filter (undefined_pair defs) (called_pairs calls))).
Proof.
  rewrite check_calls_flat. simpl.
  induction calls as [| [obj methods] calls IH]; simpl.
  - constructor.
  - unfold called_pairs in *. simpl. rewrite filter_app, map_app.
    apply Permutation_app; [| exact IH].
    rewrite check_methods_filter, pairs_of_receiver.
    apply Permutation_map, filter_perm, set_iter_perm.
Qed.

Lemma check_calls_length (calls : dict pyset) :
  length (check_calls h defs calls [])
  = length (filter (undefined_pair defs) (called_pairs calls)).
Proof.
  rewrite (Permutation_length (check_calls_perm calls)). apply length_map.
Qed.

Lemma pairs_same_sites (sites sites' : list (string * string)) :
  (forall p, In p sites <-> In p sites') ->
  Permutation (called_pairs (calls_of_sites sites))
              (called_pairs (calls_of_sites sites')).
Proof.
  intros H. apply NoDup_Permutation.
  - apply called_pairs_NoDup, calls_of_sites_wf.
  - apply called_pairs_NoDup, calls_of_sites_wf.
  - intros p. rewrite !calls_of_sites_pairs. apply H.
Qed.

Lemma pairs_new_site (sites1 sites2 : list (string * string))
    (site : string * string) :
  ~ In site (sites1 ++ sites2) ->
  Permutation (called_pairs (calls_of_sites (sites1 ++ site :: sites2)))
              (site :: called_pairs (calls_of_sites (sites1 ++ sites2))).
Proof.
  intros Hnew. apply NoDup_Permutation.
  - apply called_pairs_NoDup, calls_of_sites_wf.
  - constructor.
    + now rewrite calls_of_sites_pairs.
    + apply called_pairs_NoDup, calls_of_sites_wf.
  - intros p. simpl. rewrite !calls_of_sites_pairs, !in_app_iff. simpl.
    intuition.
Qed.

Lemma repeated_site_same_count (sites1 sites2 : list (string * string))
    (site : string * string) :
  In site (sites1 ++ sites2) ->
  length (check_calls h defs (calls_of_sites (sites1 ++ site :: sites2)) [])
  = length (check_calls h defs (calls_of_sites (sites1 ++ sites2)) []).
Proof.
  intros Hold. rewrite !check_calls_length.
  apply Permutation_length, filter_perm, pairs_same_sites.
  intros p. rewrite in_app_iff in Hold. rewrite !in_app_iff. simpl.
  split; [| tauto].
  intros [H | [<- | H]]; tauto.
Qed.

Lemma new_site_count (sites1 sites2 : list (string * string))
    (site : string * string) :
  ~ In site (sites1 ++ sites2) ->
  length (check_calls h defs (calls_of_sites (sites1 ++ site :: sites2)) [])
  = (if is_undefined defs (snd site) then 1 else 0)
    + length (check_calls h defs (calls_of_sites (sites1 ++ sites2)) []).
Proof.
  intros Hnew. rewrite !check_calls_length.
  rewrite (Permutation_length
             (filter_perm (undefined_pair defs) _ _ (pairs_new_site _ _ _ Hnew))).
  simpl. unfold undefined_pair at 1.
  destruct (is_undefined defs (snd site)); reflexivity.
Qed.

End UndefinedMethods.

Lemma undefined_method_errors_eq (h : HashOrder) (self : matcher) :
  undefined_method_errors h self
  = check_calls h (extract_method_defs self) (extract_method_calls self) [].
Proof.
  unfold undefined_method_errors. simpl.
  now rewrite check_calls_flat, skipn_app_exact, check_calls_flat.
Qed.

(** C7, as stated, fails in its consequence: a second call site
    [svc.foo()] is a call site to a name absent from the definitions, and
    the error count stays 1, because the calls of a receiver are a set. *)
Lemma repeated_call_site_adds_no_error :
  call_sites "svc.foo()" = [("svc", "foo")]
  /\ call_sites "svc.foo(); svc.foo()" = [("svc", "foo"); ("svc", "foo")]
  /\ extract_method_defs (init "svc.foo()" "fun bar()") = ["bar"]
  /\ dict_get "error_count" (report_of perm_refl_order "svc.foo()" "fun bar()")
     = Some (VInt 1)
  /\ dict_get "error_count"
       (report_of perm_refl_order "svc.foo(); svc.foo()" "fun bar()")
     = Some (VInt 1).
Proof. vm_compute. repeat split. Qed.

(** C7, amended.  The undefined-method rule emits one error for every
    distinct (receiver, method) pair of the test call sites whose method is
    neither defined nor a helper name, and no other.  Consequently a call
    site whose pair does not occur yet, to a name that is neither defined
    nor a helper, raises the error count of the rule by exactly one, and a
    call site that repeats a pair already present leaves it unchanged. *)
Theorem undefined_method_rule_counts_distinct_pairs :
  (forall h self,
     let pairs := called_pairs (extract_method_calls self) in
     Permutation
       (undefined_method_errors h self)
       (map pair_msg (filter (undefined_pair (extract_method_defs self)) pairs))
     /\ NoDup pairs
     /\ (forall p, In p pairs <-> In p (call_sites (test_code self)))) /\
  (forall h defs sites1 sites2 obj method,
     let before := check_calls h defs (calls_of_sites (sites1 ++ sites2)) [] in
     let after :=
       check_calls h defs (calls_of_sites (sites1 ++ (obj, method) :: sites2)) [] in
     (is_undefined defs method = true ->
      ~ In (obj, method) (sites1 ++ sites2) ->
      length after = S (length before)) /\
     (In (obj, method) (sites1 ++ sites2) -> length after = length before)).
Proof.
  split.
  - intros h self pairs. split; [| split].
    + rewrite undefined_method_errors_eq. apply check_calls_perm.
    + apply called_pairs_NoDup, calls_of_sites_wf.
    + intros p. apply calls_of_sites_pairs.
  - intros h defs sites1 sites2 obj method before after. split.
    + intros Hu Hnew. unfold after, before.
      rewrite (new_site_count h defs sites1 sites2 (obj, method) Hnew).
      simpl. now rewrite Hu.
    + intros Hold. now apply repeated_site_same_count.
Qed.

Lemma undefined_method_rule_witness :
  length (check_calls perm_rev_order ["bar"]
            (calls_of_sites [("svc", "foo"); ("repo", "save"); ("svc", "bar")]) [])
  = S (length (check_calls perm_rev_order ["bar"]
                 (calls_of_sites [("svc", "foo"); ("svc", "bar")]) []))
  /\ length (check_calls perm_rev_order ["bar"]
               (calls_of_sites [("svc", "foo"); ("svc", "foo"); ("svc", "bar")]) [])
     = length (check_calls perm_rev_order ["bar"]
                 (calls_of_sites [("svc", "foo"); ("svc", "bar")]) []).
Proof.
  destruct undefined_method_rule_counts_distinct_pairs as [_ H].
  split.
  - apply (H perm_rev_order ["bar"] [("svc", "foo")] [("svc", "bar")]
             "repo" "save").
    + reflexivity.
    + simpl. intros [E | [E | []]]; discriminate E.
  - apply (H perm_rev_order ["bar"] [("svc", "foo")] [("svc", "bar")]
             "svc" "foo").
    simpl. now left.
Defined.

(** ** Rules 2 and 3: the coverage warnings *)

Section Coverage.

Variable h : HashOrder.

Lemma all_called_from (l : list pyset) (acc : pyset) (m : string) :
  In m (fold_left (fun acc methods => set_update acc (set_iter h methods)) l acc)
  <-> In m acc \/ exists methods, In methods l /\ In m methods.
Proof.
  revert acc. induction l as [| ms l IH]; intros acc; simpl.
  - split; [tauto | intros [H | [ms [[] _]]]; assumption].
  - rewrite IH, set_update_In, set_iter_In. split.
    + intros [[H | H] | [ms' [H1 H2]]]; eauto.
    + intros [H | [ms' [[<- | H1] H2]]]; eauto.
Qed.

(** [all_called_methods] holds the methods called on some receiver. *)
Lemma all_called_methods_In (calls : dict pyset) (m : string) :
  In m (all_called_methods h calls)
  <-> exists obj, In (obj, m) (called_pairs calls).
Proof.
  unfold all_called_methods. rewrite all_called_from. simpl. split.
  - intros [[] | [ms [Hin Hm]]]. unfold values in Hin.
    apply in_map_iff in Hin. destruct Hin as [[obj ms'] [<- Hin]].
    exists obj. apply called_pairs_In. now exists ms'.
  - intros [obj H]. apply called_pairs_In in H. destruct H as [ms [Hin Hm]].
    right. exists ms. split; [| assumption].
    unfold values. change ms with (snd (obj, ms)). now apply in_map.
Qed.

Lemma uncovered_methods_In (self : matcher) (m : string) :
  In m (uncovered_methods h self)
  <-> In m (extract_method_defs self)
      /\ startswith_underscore m = false
      /\ ~ In m structural_methods
      /\ ~ (exists obj, In (obj, m) (call_sites (test_code self))).
Proof.
  unfold uncovered_methods.
  rewrite set_comp_In, set_diff_In, set_comp_In, all_called_methods_In.
  rewrite !negb_true_iff, mem_false.
  assert (E : (exists obj, In (obj, m) (called_pairs (extract_method_calls self)))
              <-> (exists obj, In (obj, m) (call_sites (test_code self)))).
  { split; intros [obj H]; exists obj;
      now apply (calls_of_sites_pairs (call_sites (test_code self)) (obj, m)). }
  rewrite E. tauto.
Qed.

Lemma uncovered_methods_NoDup (self : matcher) :
  NoDup (uncovered_methods h self).
Proof. apply set_comp_NoDup. Qed.

Lemma untested_exceptions_In (self : matcher) (x : string) :
  In x (untested_exceptions h self)
  <-> In x (thrown_exceptions (impl_code self))
      /\ ~ In x (tested_exceptions (test_code self)).
Proof. apply set_diff_In. Qed.

Lemma repr_set_listing (prefix : string) (s : pyset) :
  (if nonempty s then [(prefix ++ repr_set h s)%string] else [])
  = if nonempty s
    then [(prefix ++ "{" ++ join ", " (map repr_str (set_iter h s)) ++ "}")%string]
    else [].
Proof. destruct s; reflexivity. Qed.

(** A duplicate-free list whose only element is [a]. *)
Lemma only_element (l : list string) (a : string) :
  NoDup l -> (forall x, In x l <-> x = a) -> l = [a].
Proof.
  intros Hnd H. apply Permutation_length_1_inv, NoDup_Permutation.
  - constructor; [intros [] | constructor].
  - assumption.
  - intros x. rewrite H. simpl. intuition.
Qed.

Lemma no_element (l : list string) : (forall x, ~ In x l) -> l = [].
Proof.
  destruct l as [| a l]; [reflexivity |]. intros H. destruct (H a). now left.
Qed.

End Coverage.


(** C9.  The untested-method rule keeps the defined methods whose name does
    not start with an underscore, drops those called on some receiver in
    the tests and the four structural names, and warns once about what is
    left.  A lone definition [equals] gives no warning, a lone definition
    [computeTotal] gives exactly one. *)
Theorem untested_method_rule_exemptions :
  (forall h self,
     let uncovered := uncovered_methods h self in
     (forall m, In m uncovered <->
                In m (extract_method_defs self)
                /\ startswith_underscore m = false
                /\ ~ In m structural_methods
                /\ ~ (exists obj, In (obj, m) (call_sites (test_code self))))
     /\ NoDup uncovered
     /\ Permutation (set_iter h uncovered) uncovered
     /\ warnings (snd (validate_test_coverage h self))
        = warnings self ++ coverage_warnings h self
     /\ coverage_warnings h self
        = (if nonempty uncovered
           then [("Public methods without tests: "
                  ++ "{" ++ join ", " (map repr_str (set_iter h uncovered)) ++ "}")%string]
           else [])) /\
  structural_methods = ["equals"; "hashCode"; "toString"; "getClass"] /\
  (forall h,
     coverage_warnings h (init "" "fun equals(other: Any?): Boolean = true")
     = []) /\
  (forall h,
     coverage_warnings h (init "" "fun computeTotal(): Int = 0")
     = ["Public methods without tests: {'computeTotal'}"]).
Proof.
  split; [| split; [reflexivity | split]].
  - intros h self uncovered. split; [| split; [| split; [| split]]].
    + apply uncovered_methods_In.
    + apply uncovered_methods_NoDup.
    + apply set_iter_perm.
    + apply test_coverage_warnings.
    + rewrite coverage_warnings_eq. apply repr_set_listing.
  - intros h. rewrite coverage_warnings_eq.
    set (self := init _ _).
    assert (E : uncovered_methods h self = []).
    { apply no_element. intros x. rewrite uncovered_methods_In.
      replace (extract_method_defs self) with ["equals"]
        by (vm_compute; reflexivity).
      intros ([<- | []] & _ & Hs & _). apply Hs. now left. }
    now rewrite E.
  - intros h. rewrite coverage_warnings_eq.
    set (self := init _ _).
    assert (E : uncovered_methods h self = ["computeTotal"]).
    { apply only_element; [apply uncovered_methods_NoDup |].
      intros x. rewrite uncovered_methods_In.
      replace (extract_method_defs self) with ["computeTotal"]
        by (vm_compute; reflexivity).
      replace (call_sites (test_code self)) with (@nil (string * string))
        by (vm_compute; reflexivity).
      split.
      - intros ([<- | []] & _). reflexivity.
      - intros ->. repeat split.
        + now left.
        + simpl. intros [E | [E | [E | [E | []]]]]; discriminate E.
        + intros [obj []]. }
    rewrite E. simpl. unfold repr_set. rewrite set_iter_singleton. reflexivity.
Qed.

(** ** Two runs on the same texts *)

(** C4, as stated, fails: the rules walk Python sets, whose iteration
    order comes from the string hashes of the interpreter process.  On the
    same two texts, two iteration orders give the undefined-method errors in
    different orders and different set listings in the warning. *)
Lemma report_follows_set_iteration_order :
  let test := "svc.save(); svc.load()" in
  let impl := "fun open() fun close() fun flush()" in
  report_of perm_refl_order test impl
  = [("success", VBool false);
     ("errors",
      VList ["Method 'save' is called in tests but not found in implementation";
             "Method 'load' is called in tests but not found in implementation"]);
     ("warnings",
      VList ["Public methods without tests: {'open', 'close', 'flush'}"]);
     ("error_count", VInt 2); ("warning_count", VInt 1)]
  /\ report_of perm_rot_order test impl
     = [("success", VBool false);
        ("errors",
         VList ["Method 'load' is called in tests but not found in implementation";
                "Method 'save' is called in tests but not found in implementation"]);
        ("warnings",
         VList ["Public methods without tests: {'close', 'flush', 'open'}"]);
        ("error_count", VInt 2); ("warning_count", VInt 1)]
  /\ report_of perm_refl_order test impl <> report_of perm_rot_order test impl.
Proof.
  cbv zeta. split; [vm_compute; reflexivity |].
  split; [vm_compute; reflexivity |].
  vm_compute. discriminate.
Qed.

Section TwoRuns.

Variables h1 h2 : HashOrder.
Variable self : matcher.

Lemma undefined_method_errors_perm :
  Permutation (undefined_method_errors h1 self) (undefined_method_errors h2 self).
Proof.
  rewrite !undefined_method_errors_eq.
  eapply Permutation_trans; [apply check_calls_perm |].
  apply Permutation_sym, check_calls_perm.
Qed.

Lemma uncovered_methods_perm :
  Permutation (uncovered_methods h1 self) (uncovered_methods h2 self).
Proof.
  apply NoDup_Permutation; try apply uncovered_methods_NoDup.
  intros m. now rewrite !uncovered_methods_In.
Qed.

Lemma untested_exceptions_perm :
  Permutation (untested_exceptions h1 self) (untested_exceptions h2 self).
Proof.
  apply NoDup_Permutation; try apply set_diff_NoDup.
  intros x. now rewrite !untested_exceptions_In.
Qed.

Lemma coverage_warnings_length :
  length (coverage_warnings h1 self) = length (coverage_warnings h2 self).
Proof.
  rewrite !coverage_warnings_eq, (nonempty_perm _ _ uncovered_methods_perm).
  destruct (nonempty _); reflexivity.
Qed.

Lemma exception_warnings_length :
  length (exception_warnings h1 self) = length (exception_warnings h2 self).
Proof.
  rewrite !exception_warnings_eq, (nonempty_perm _ _ untested_exceptions_perm).
  destruct (nonempty _); reflexivity.
Qed.

End TwoRuns.

(** C4, amended.  For a fixed pair of texts, two runs agree on the success
    flag, on the error count and the warning count, on the errors up to
    their order (the arity errors are the same list, the undefined-method
    errors a permutation), and on the names each warning lists, up to their
    order.  The order of the undefined-method errors and of the names in a
    warning is the iteration order of the sets, which is the same in both
    runs only when the interpreter hashes strings the same way. *)
Theorem reports_agree_up_to_set_iteration_order :
  forall h1 h2 test impl,
    let self := init test impl in
    let m1 := snd (run_all_checks h1 self) in
    let m2 := snd (run_all_checks h2 self) in
    let rep1 := snd (fst (run_all_checks h1 self)) in
    let rep2 := snd (fst (run_all_checks h2 self)) in
    dict_get "success" rep1 = dict_get "success" rep2
    /\ dict_get "error_count" rep1 = dict_get "error_count" rep2
    /\ dict_get "warning_count" rep1 = dict_get "warning_count" rep2
    /\ errors m1 = undefined_method_errors h1 self ++ arity_errors self
    /\ errors m2 = undefined_method_errors h2 self ++ arity_errors self
    /\ Permutation (undefined_method_errors h1 self)
                   (undefined_method_errors h2 self)
    /\ Permutation (errors m1) (errors m2)
    /\ warnings m1 = coverage_warnings h1 self ++ exception_warnings h1 self
    /\ warnings m2 = coverage_warnings h2 self ++ exception_warnings h2 self
    /\ Permutation (uncovered_methods h1 self) (uncovered_methods h2 self)
    /\ Permutation (untested_exceptions h1 self) (untested_exceptions h2 self).
Proof.
  intros h1 h2 test impl self m1 m2 rep1 rep2.
  destruct (run_all_checks_state h1 self) as (_ & _ & He1 & Hw1).
  destruct (run_all_checks_state h2 self) as (_ & _ & He2 & Hw2).
  fold m1 in He1, Hw1. fold m2 in He2, Hw2.
  cbn [self init errors warnings app] in He1, He2, Hw1, Hw2.
  fold self in He1, He2, Hw1, Hw2.
  assert (Pe : Permutation (errors m1) (errors m2)).
  { rewrite He1, He2. apply Permutation_app_tail, undefined_method_errors_perm. }
  assert (Le : length (errors m1) = length (errors m2))
    by now apply Permutation_length.
  assert (Lw : length (warnings m1) = length (warnings m2)).
  { rewrite Hw1, Hw2, !length_app.
    now rewrite (coverage_warnings_length h1 h2 self),
                (exception_warnings_length h1 h2 self). }
  unfold rep1, rep2.
  split; [| split; [| split; [| split; [| split; [| split; [| split;
    [| split; [| split; [| split]]]]]]]]].
  - rewrite !run_all_checks_report. cbv zeta. cbn [snd dict_get String.eqb].
    fold m1 m2. now rewrite Le.
  - rewrite !report_error_count. fold m1 m2. now rewrite Le.
  - rewrite !report_warning_count. fold m1 m2. now rewrite Lw.
  - exact He1.
  - exact He2.
  - apply undefined_method_errors_perm.
  - exact Pe.
  - exact Hw1.
  - exact Hw2.
  - apply uncovered_methods_perm.
  - apply untested_exceptions_perm.
Qed.

(** ** What the signature pattern captures *)

Section Matching.

Lemma star_loop_eq (body : chars -> caps -> cont -> result) (g : bool)
    (k : cont) (n : nat) (s : chars) (cs : caps) :
  star_loop body g k n s cs
  = let more (_ : unit) :=
      match n with
      | 0 => None
      | S n' =>
          body s cs (fun s' cs' =>
            if length s' <? length s
            then star_loop body g k n' s' cs'
            else None)
      end in
    if g then orelse (more tt) (fun _ => k s cs) else orelse (k s cs) more.
Proof. destruct n; reflexivity. Qed.

Lemma rmatch_seq (r1 r2 : regex) (s : chars) (cs : caps) (k : cont) :
  rmatch (Seq r1 r2) s cs k = rmatch r1 s cs (fun s' cs' => rmatch r2 s' cs' k).
Proof. reflexivity. Qed.

Lemma rmatch_star (g : bool) (r : regex) (s : chars) (cs : caps) (k : cont) :
  rmatch (Star g r) s cs k = star_loop (rmatch r) g k (length s) s cs.
Proof. reflexivity. Qed.

Lemma lit_sound (c : ascii) (s : chars) (cs : caps) (k : cont)
    (res : caps * chars) :
  rmatch (Lit c) s cs k = Some res -> exists t, s = c :: t /\ k t cs = Some res.
Proof.
  simpl. destruct s as [| x t]; [discriminate |].
  destruct (Ascii.eqb x c) eqn:E; [| discriminate].
  apply Ascii.eqb_eq in E. subst x. intros H. now exists t.
Qed.

(** *** The repetition counter is never the reason a match fails *)

Lemma star_loop_ext (body : chars -> caps -> cont -> result) (g : bool)
    (n : nat) :
  (forall s cs k1 k2,
     (forall s' cs', k1 s' cs' = k2 s' cs') -> body s cs k1 = body s cs k2) ->
  forall s cs k1 k2,
    (forall s' cs', k1 s' cs' = k2 s' cs') ->
    star_loop body g k1 n s cs = star_loop body g k2 n s cs.
Proof.
  intros Hbody. induction n as [| n IH]; intros s cs k1 k2 Hk;
    rewrite (star_loop_eq body g k1), (star_loop_eq body g k2); cbv zeta;
    rewrite (Hk s cs).
  - reflexivity.
  - rewrite (Hbody s cs _
               (fun s' cs' =>
                  if length s' <? length s then star_loop body g k2 n s' cs'
                  else None)).
    + reflexivity.
    + intros s' cs'. destruct (length s' <? length s); [now apply IH | reflexivity].
Qed.

Lemma rmatch_ext (r : regex) :
  forall s cs k1 k2,
    (forall s' cs', k1 s' cs' = k2 s' cs') -> rmatch r s cs k1 = rmatch r s cs k2.
Proof.
  induction r as [| c | p | r1 IH1 r2 IH2 | r1 IH1 r2 IH2 | g r1 IH1 | i r1 IH1];
    intros s cs k1 k2 Hk; simpl.
  - apply Hk.
  - destruct s as [| x t]; [reflexivity |]. destruct (Ascii.eqb x c); auto.
  - destruct s as [| x t]; [reflexivity |]. destruct (p x); auto.
  - apply IH1. intros s' cs'. now apply IH2.
  - now rewrite (IH1 s cs k1 k2 Hk), (IH2 s cs k1 k2 Hk).
  - now apply star_loop_ext.
  - apply IH1. intros s' cs'. apply Hk.
Qed.

Lemma star_loop_none (body : chars -> caps -> cont -> result) (g : bool)
    (k : cont) (n : nat) :
  (forall s cs k', (forall s' cs', k' s' cs' = None) -> body s cs k' = None) ->
  (forall s' cs', k s' cs' = None) ->
  forall s cs, star_loop body g k n s cs = None.
Proof.
  intros Hbody Hk. induction n as [| n IH]; intros s cs;
    rewrite star_loop_eq; cbv zeta; rewrite (Hk s cs).
  - destruct g; reflexivity.
  - rewrite Hbody; [destruct g; reflexivity |].
    intros s' cs'. destruct (length s' <? length s); [apply IH | reflexivity].
Qed.

(** Every success goes through the continuation. *)
Lemma rmatch_none (r : regex) :
  forall s cs k, (forall s' cs', k s' cs' = None) -> rmatch r s cs k = None.
Proof.
  induction r as [| c | p | r1 IH1 r2 IH2 | r1 IH1 r2 IH2 | g r1 IH1 | i r1 IH1];
    intros s cs k Hk; simpl.
  - apply Hk.
  - destruct s as [| x t]; [reflexivity |]. destruct (Ascii.eqb x c); auto.
  - destruct s as [| x t]; [reflexivity |]. destruct (p x); auto.
  - apply IH1. intros s' cs'. now apply IH2.
  - now rewrite (IH1 s cs k Hk), (IH2 s cs k Hk).
  - now apply star_loop_none.
  - apply IH1. intros s' cs'. apply Hk.
Qed.

Lemma star_fuel_step (r : regex) (g : bool) (k : cont) (n : nat) :
  forall s cs,
    length s <= n ->
    star_loop (rmatch r) g k (S n) s cs = star_loop (rmatch r) g k n s cs.
Proof.
  induction n as [| n IH]; intros s cs Hlen.
  - destruct s as [| x t]; [| simpl in Hlen; lia].
    rewrite (star_loop_eq _ _ _ 1), (star_loop_eq _ _ _ 0). cbv zeta.
    rewrite rmatch_none; [reflexivity |]. intros s' cs'. reflexivity.
  - rewrite (star_loop_eq _ _ _ (S (S n))), (star_loop_eq _ _ _ (S n)).
    cbv zeta.
    rewrite (rmatch_ext r s cs _
               (fun s' cs' =>
                  if length s' <? length s
                  then star_loop (rmatch r) g k n s' cs' else None)).
    + reflexivity.
    + intros s' cs'. destruct (length s' <? length s) eqn:E; [| reflexivity].
      apply Nat.ltb_lt in E. apply IH. lia.
Qed.

(** A repetition over [s] gives the same result with any counter from
    [length s] on: the counter of [rmatch] is enough. *)
Lemma star_fuel_enough (r : regex) (g : bool) (k : cont) (n : nat) :
  forall s cs,
    length s <= n ->
    star_loop (rmatch r) g k n s cs
    = star_loop (rmatch r) g k (length s) s cs.
Proof.
  induction n as [| n IH]; intros s cs Hlen.
  - destruct s; [reflexivity | simpl in Hlen; lia].
  - destruct (Nat.eq_dec (length s) (S n)) as [E | E].
    + now rewrite E.
    + rewrite star_fuel_step by lia. apply IH. lia.
Qed.

Lemma consumed_app (pre s' : chars) : consumed (pre ++ s') s' = pre.
Proof.
  unfold consumed. rewrite length_app.
  replace (length pre + length s' - length s') with (length pre) by lia.
  rewrite firstn_app, firstn_all, Nat.sub_diag. simpl. apply app_nil_r.
Qed.

(** A repetition of a character class reads a run of the class and leaves
    the groups alone. *)
Lemma star_class_sound (p : ascii -> bool) (g : bool) (k : cont) (n : nat)
    (s : chars) (cs : caps) (res : caps * chars) :
  star_loop (rmatch (Class p)) g k n s cs = Some res ->
  exists pre s',
    s = pre ++ s' /\ Forall (fun c => p c = true) pre /\ k s' cs = Some res.
Proof.
  revert s. induction n as [| n IH]; intros s H; rewrite star_loop_eq in H.
  - exists [], s. destruct g; simpl in H.
    + repeat split; [constructor | exact H].
    + repeat split; [constructor |]. destruct (k s cs); [exact H | discriminate].
  - assert (Hmore :
      rmatch (Class p) s cs (fun s' cs' =>
        if length s' <? length s
        then star_loop (rmatch (Class p)) g k n s' cs' else None) = Some res ->
      exists pre s',
        s = pre ++ s' /\ Forall (fun c => p c = true) pre /\ k s' cs = Some res).
    { simpl. destruct s as [| x t]; [discriminate |].
      destruct (p x) eqn:Px; [| discriminate].
      destruct (length t <? length (x :: t)); [| discriminate].
      intros Hr. destruct (IH t Hr) as (pre & s' & -> & Hp & Hk).
      exists (x :: pre), s'. repeat split; [now constructor | exact Hk]. }
    cbv zeta in H. destruct g; unfold orelse in H.
    + match type of H with
      | match ?e with _ => _ end = _ => destruct e eqn:E
      end.
      * apply Hmore. exact H.
      * exists [], s. repeat split; [constructor | exact H].
    + destruct (k s cs) eqn:E.
      * exists [], s. repeat split; [constructor | now rewrite E].
      * now apply Hmore.
Qed.

(** A lazy repetition stops at the first place where the rest of the
    pattern matches: the continuation failed at every earlier place. *)
Lemma lazy_star_class_first (p : ascii -> bool) (k : cont) (n : nat)
    (s : chars) (cs : caps) (res : caps * chars) :
  star_loop (rmatch (Class p)) false k n s cs = Some res ->
  exists pre s',
    s = pre ++ s' /\ Forall (fun c => p c = true) pre /\ k s' cs = Some res /\
    forall pre1 c pre2, pre = pre1 ++ c :: pre2 -> k (c :: pre2 ++ s') cs = None.
Proof.
  revert s. induction n as [| n IH]; intros s H; rewrite star_loop_eq in H;
    cbv zeta in H; unfold orelse in H.
  - destruct (k s cs) eqn:E; [| discriminate].
    exists [], s. repeat split; [constructor | now rewrite E |].
    intros [| ? ?] ? ? Hs; discriminate Hs.
  - destruct (k s cs) eqn:E.
    + exists [], s. repeat split; [constructor | now rewrite E |].
      intros [| ? ?] ? ? Hs; discriminate Hs.
    + simpl in H. destruct s as [| x t]; [discriminate |].
      destruct (p x) eqn:Px; [| discriminate].
      destruct (length t <? length (x :: t)); [| discriminate].
      destruct (IH t H) as (pre & s' & -> & Hp & Hk & Hfirst).
      exists (x :: pre), s'. repeat split; [now constructor | exact Hk |].
      intros [| y pre1] c pre2 Hs; simpl in Hs; injection Hs as Hx Hs.
      * subst. exact E.
      * now apply (Hfirst pre1).
Qed.

(** One or more characters of a class, as a group. *)
Lemma group_plus_class_sound (p : ascii -> bool) (i : nat) (k : cont)
    (s : chars) (cs : caps) (res : caps * chars) :
  rmatch (Group i (Plus (Class p))) s cs k = Some res ->
  exists name s',
    s = name ++ s' /\ name <> [] /\ Forall (fun c => p c = true) name /\
    k s' ((i, name) :: cs) = Some res.
Proof.
  simpl. destruct s as [| x t]; [discriminate |].
  destruct (p x) eqn:Px; [| discriminate].
  intros H. apply star_class_sound in H.
  destruct H as (pre & s' & -> & Hp & Hk).
  exists (x :: pre), s'. repeat split.
  - discriminate.
  - now constructor.
  - change (x :: pre ++ s') with ((x :: pre) ++ s') in Hk.
    now rewrite consumed_app in Hk.
Qed.

(** The tail of the signature patterns: the group is what stands between
    the opening parenthesis and the first closing one, on one line. *)
Lemma args_tail_sound (s : chars) (cs : caps) (res : caps * chars) :
  rmatch args_tail s cs accept = Some res ->
  exists args rest,
    s = "("%char :: args ++ ")"%char :: rest /\
    res = ((2, args) :: cs, rest) /\
    ~ In ")"%char args /\ ~ In newline args.
Proof.
  unfold args_tail, lparen, rparen. simpl.
  destruct s as [| x t]; [discriminate |].
  destruct (Ascii.eqb x "(") eqn:Ex; [| discriminate].
  apply Ascii.eqb_eq in Ex. subst x.
  intros H. apply lazy_star_class_first in H.
  destruct H as (args & s' & -> & Hdot & Hk & Hfirst).
  destruct s' as [| y rest]; [discriminate |].
  destruct (Ascii.eqb y ")") eqn:Ey; [| discriminate].
  apply Ascii.eqb_eq in Ey. subst y.
  rewrite consumed_app in Hk. unfold accept in Hk. injection Hk as <-.
  exists args, rest. repeat split.
  - intros Hin. apply in_split in Hin. destruct Hin as (pre1 & pre2 & Hs).
    specialize (Hfirst pre1 ")"%char pre2 Hs). simpl in Hfirst. discriminate.
  - intros Hin. rewrite Forall_forall in Hdot. apply Hdot in Hin.
    unfold is_dot in Hin. now rewrite Ascii.eqb_refl in Hin.
Qed.

Lemma test_pattern_sound (s : chars) (m : caps) (rest : chars) :
  match_here test_pattern s = Some (m, rest) ->
  exists name sp args,
    s = "."%char :: name ++ sp ++ "("%char :: args ++ ")"%char :: rest /\
    m = [(2, args); (1, name)] /\
    name <> [] /\ Forall (fun c => is_word c = true) name /\
    Forall (fun c => is_space c = true) sp /\
    ~ In ")"%char args /\ ~ In newline args.
Proof.
  unfold match_here, test_pattern. rewrite rmatch_seq. intros H.
  apply lit_sound in H. destruct H as (s1 & -> & H).
  rewrite rmatch_seq in H. unfold w in H. apply group_plus_class_sound in H.
  destruct H as (name & s2 & -> & Hne & Hw & H).
  rewrite rmatch_seq in H. unfold ws in H. rewrite rmatch_star in H.
  apply star_class_sound in H. destruct H as (sp & s3 & -> & Hsp & H).
  apply args_tail_sound in H.
  destruct H as (args & rest' & -> & [= -> ->] & Hp & Hn).
  exists name, sp, args. repeat split; assumption.
Qed.

Lemma scan_sound (r : regex) (s : chars) (skip : nat) (m : caps) :
  In m (scan r s skip) ->
  exists before here rest,
    s = before ++ here /\ match_here r here = Some (m, rest).
Proof.
  revert skip. induction s as [| x t IH]; intros skip H; simpl in H.
  - destruct H.
  - assert (Ht : forall k, In m (scan r t k) ->
                 exists before here rest,
                   x :: t = before ++ here /\ match_here r here = Some (m, rest)).
    { intros k Hk. destruct (IH k Hk) as (before & here & rest & -> & Hm).
      now exists (x :: before), here, rest. }
    destruct skip as [| k]; [| now apply (Ht k)].
    destruct (match_here r (x :: t)) as [[cs rest] |] eqn:E.
    + destruct H as [<- | H]; [| now apply (Ht _ H)].
      now exists [], (x :: t), rest.
    + now apply (Ht 0).
Qed.

End Matching.

(** C2, as stated, fails: the argument of [save] holds a nested call, and
    the capture stops at the parenthesis that closes the nested call.  The
    call with two arguments is counted as having one. *)
Lemma nested_call_argument_truncated :
  map groups12 (finditer test_pattern "svc.save(build(id), name)")
  = [("save", "build(id")]
  /\ param_count "build(id" = 1
  /\ arity_errors (init "svc.save(build(id), name)"
                        "fun save(item: Item, name: String)")
     = ["Method 'save' called with 1 params in test, but defined with 2 in implementation"].
Proof. vm_compute. repeat split. Qed.

(** C2, amended.  For every call site extracted for the arity comparison,
    the captured argument text runs from the opening parenthesis to the
    first closing parenthesis after it, on the same line: it holds no
    closing parenthesis and no line feed.  Arguments without parentheses
    are captured in full; an argument with a nested call is cut at the
    closing parenthesis of the nested call. *)
Theorem captured_arguments_end_at_first_closing_parenthesis :
  forall test m,
    In m (finditer test_pattern test) ->
    exists before name sp args rest,
      unstr test
      = before ++ "."%char :: name ++ sp ++ "("%char :: args ++ ")"%char :: rest
      /\ group 1 m = Some name
      /\ group 2 m = Some args
      /\ name <> []
      /\ Forall (fun c => is_word c = true) name
      /\ Forall (fun c => is_space c = true) sp
      /\ ~ In ")"%char args
      /\ ~ In newline args.
Proof.
  intros test m H. unfold finditer in H. apply scan_sound in H.
  destruct H as (before & here & rest & Hs & Hm).
  apply test_pattern_sound in Hm.
  destruct Hm as (name & sp & args & -> & -> & Hne & Hw & Hsp & Hp & Hn).
  exists before, name, sp, args, rest. repeat split; assumption.
Qed.

Lemma captured_arguments_witness :
  exists before name sp args rest,
    unstr "svc.save(build(id), name)"
    = before ++ "."%char :: name ++ sp ++ "("%char :: args ++ ")"%char :: rest
    /\ group 1 [(2, unstr "build(id"); (1, unstr "save")] = Some name
    /\ group 2 [(2, unstr "build(id"); (1, unstr "save")] = Some args
    /\ name <> []
    /\ Forall (fun c => is_word c = true) name
    /\ Forall (fun c => is_space c = true) sp
    /\ ~ In ")"%char args
    /\ ~ In newline args.
Proof.
  apply (captured_arguments_end_at_first_closing_parenthesis
           "svc.save(build(id), name)").
  vm_compute. now left.
Defined.

(** * Further properties of the code *)

(** ** [strip], [split] and the parameter count *)

Section Strings.

Lemma unstr_str (l : chars) : unstr (str l) = l.
Proof. apply list_ascii_of_string_of_list_ascii. Qed.

Lemma str_unstr (s : string) : str (unstr s) = s.
Proof. apply string_of_list_ascii_of_string. Qed.

Lemma unstr_app (a b : string) : unstr (a ++ b) = unstr a ++ unstr b.
Proof.
  induction a as [| c a IH]; simpl; [reflexivity |].
  unfold unstr in *. simpl. now rewrite IH.
Qed.

Lemma lstrip_split (l : chars) :
  exists pre,
    l = pre ++ lstrip_chars l /\ Forall (fun c => is_space c = true) pre.
Proof.
  induction l as [| c l IH]; simpl.
  - exists []. split; [reflexivity | constructor].
  - destruct (is_space c) eqn:E.
    + destruct IH as (pre & Hl & Hp). exists (c :: pre). split.
      * simpl. now rewrite <- Hl.
      * now constructor.
    + exists []. split; [reflexivity | constructor].
Qed.

Lemma lstrip_head (l : chars) (c : ascii) (t : chars) :
  lstrip_chars l = c :: t -> is_space c = false.
Proof.
  induction l as [| x l IH]; simpl; [discriminate |].
  destruct (is_space x) eqn:E; [exact IH |].
  intros [= -> _]. exact E.
Qed.

Lemma lstrip_blank (l : chars) :
  lstrip_chars l = [] <-> Forall (fun c => is_space c = true) l.
Proof.
  induction l as [| x l IH]; simpl.
  - split; [constructor | reflexivity].
  - destruct (is_space x) eqn:E.
    + rewrite IH. split; [now constructor | now inversion 1].
    + split; [discriminate |]. inversion 1; congruence.
Qed.

Lemma strip_unstr (s : string) :
  unstr (strip s) = rev (lstrip_chars (rev (lstrip_chars (unstr s)))).
Proof. unfold strip. apply unstr_str. Qed.

Lemma split_chars_nonempty (sep : ascii) (s : chars) : split_chars sep s <> [].
Proof.
  induction s as [| c s IH]; simpl; [discriminate |].
  destruct (Ascii.eqb c sep); [discriminate |].
  destruct (split_chars sep s); [contradiction | discriminate].
Qed.

Lemma split_chars_app (sep : ascii) (a b : chars) :
  split_chars sep (a ++ sep :: b) = split_chars sep a ++ split_chars sep b.
Proof.
  induction a as [| c a IH]; simpl.
  - now rewrite Ascii.eqb_refl.
  - destruct (Ascii.eqb c sep); [now rewrite IH |].
    rewrite IH. pose proof (split_chars_nonempty sep a) as Hne.
    destruct (split_chars sep a); [contradiction | reflexivity].
Qed.

Lemma split_chars_no_sep (sep : ascii) (s : chars) :
  ~ In sep s -> split_chars sep s = [s].
Proof.
  induction s as [| c s IH]; simpl; [reflexivity |].
  intros H. destruct (Ascii.eqb c sep) eqn:E.
  - apply Ascii.eqb_eq in E. subst. exfalso. apply H. now left.
  - rewrite IH; [reflexivity | intros Hin; apply H; now right].
Qed.

(** A piece of a split holds no separator and only characters of the text. *)
Lemma split_chars_piece (sep : ascii) (s seg : chars) :
  In seg (split_chars sep s) ->
  ~ In sep seg /\ forall c, In c seg -> In c s.
Proof.
  revert seg. induction s as [| x s IH]; intros seg; simpl.
  - intros [<- | []]. split; [intros [] | intros c []].
  - destruct (Ascii.eqb x sep) eqn:E.
    + intros [<- | H]; [split; [intros [] | intros c []] |].
      destruct (IH seg H) as [H1 H2]. split; [exact H1 | auto].
    + apply Ascii.eqb_neq in E.
      destruct (split_chars sep s) as [| seg0 segs] eqn:Es.
      * intros [<- | []]. split.
        -- intros [Hx | []]. congruence.
        -- intros c [<- | []]. now left.
      * intros [<- | H].
        -- destruct (IH seg0 (or_introl eq_refl)) as [H1 H2]. split.
           ++ intros [Hx | Hin]; [congruence | contradiction].
           ++ intros c [<- | Hin]; [now left | right; auto].
        -- destruct (IH seg (or_intror H)) as [H1 H2]. split; [exact H1 | auto].
Qed.

Lemma strip_blank (s : string) :
  truthy (strip s) = false <-> Forall (fun c => is_space c = true) (unstr s).
Proof.
  assert (E : truthy (strip s) = false <-> unstr (strip s) = []).
  { destruct (strip s); simpl; split; congruence. }
  rewrite E, strip_unstr. split.
  - intros H. apply (f_equal (@rev ascii)) in H. rewrite rev_involutive in H.
    simpl in H. apply lstrip_blank in H. apply Forall_rev in H.
    rewrite rev_involutive in H. apply lstrip_blank.
    destruct (lstrip_chars (unstr s)) as [| c t] eqn:El; [reflexivity |].
    apply lstrip_head in El. inversion H; congruence.
  - intros H. apply lstrip_blank in H. now rewrite H.
Qed.

Lemma param_count_chars (s : string) :
  param_count s
  = length (filter (fun seg => truthy (strip (str seg)))
                   (split_chars "," (unstr s))).
Proof.
  unfold param_count, split.
  induction (split_chars "," (unstr s)) as [| seg segs IH]; simpl;
    [reflexivity |].
  destruct (truthy (strip (str seg))); simpl; now rewrite IH.
Qed.

End Strings.

(** [strip] removes a run of white space at each end and nothing else, and
    what it returns neither starts nor ends with white space. *)
Theorem strip_removes_surrounding_whitespace :
  forall s,
    exists pre suf,
      unstr s = pre ++ unstr (strip s) ++ suf
      /\ Forall (fun c => is_space c = true) pre
      /\ Forall (fun c => is_space c = true) suf
      /\ (forall c t, unstr (strip s) = c :: t -> is_space c = false)
      /\ (forall t c, unstr (strip s) = t ++ [c] -> is_space c = false).
Proof.
  intros s. rewrite strip_unstr.
  destruct (lstrip_split (unstr s)) as (pre & Hl & Hpre).
  set (m := lstrip_chars (unstr s)) in *.
  destruct (lstrip_split (rev m)) as (sufr & Hm & Hsuf).
  set (q := lstrip_chars (rev m)) in *.
  assert (Em : m = rev q ++ rev sufr).
  { rewrite <- rev_app_distr, <- Hm. now rewrite rev_involutive. }
  exists pre, (rev sufr). split; [| split; [| split; [| split]]].
  - now rewrite <- Em.
  - exact Hpre.
  - now apply Forall_rev.
  - intros c t Hr. rewrite Hr in Em. simpl in Em.
    apply (lstrip_head (unstr s) c (t ++ rev sufr)). exact Em.
  - intros t c Hr. apply (f_equal (@rev ascii)) in Hr.
    rewrite rev_involutive, rev_app_distr in Hr. simpl in Hr.
    apply (lstrip_head (rev m) c (rev t)). exact Hr.
Qed.

(** The parameter count of a text adds up over its commas; a piece made of
    white space only (the empty piece too) counts for nothing, and a piece
    without comma that holds anything else counts for one.  So a trailing
    comma, a doubled comma and an empty argument list add no parameter. *)
Theorem param_count_adds_over_commas :
  (forall a b, param_count (a ++ "," ++ b) = param_count a + param_count b)
  /\ (forall s,
        Forall (fun c => is_space c = true) (unstr s) -> param_count s = 0)
  /\ (forall s,
        ~ In ","%char (unstr s) ->
        ~ Forall (fun c => is_space c = true) (unstr s) ->
        param_count s = 1)
  /\ (forall s, param_count (s ++ ",") = param_count s).
Proof.
  assert (Happ : forall a b,
            param_count (a ++ "," ++ b) = param_count a + param_count b).
  { intros a b. rewrite !param_count_chars, !unstr_app.
    change (unstr ",") with [","%char]. simpl app.
    now rewrite split_chars_app, filter_app, length_app. }
  assert (Hblank : forall s,
            Forall (fun c => is_space c = true) (unstr s) -> param_count s = 0).
  { intros s Hs. rewrite param_count_chars, split_chars_no_sep.
    - simpl. rewrite str_unstr.
      apply strip_blank in Hs. now rewrite Hs.
    - intros Hin. rewrite Forall_forall in Hs. apply Hs in Hin.
      vm_compute in Hin. discriminate. }
  split; [exact Happ | split; [exact Hblank | split]].
  - intros s Hc Hb. rewrite param_count_chars, split_chars_no_sep by exact Hc.
    simpl. rewrite str_unstr. destruct (truthy (strip s)) eqn:E; [reflexivity |].
    apply strip_blank in E. contradiction.
  - intros s. replace (s ++ ",")%string with (s ++ "," ++ "")%string by reflexivity.
    rewrite Happ, (Hblank ""); [lia | constructor].
Qed.

Lemma param_count_witness :
  param_count " " = 0 /\ param_count "x: Map<K>" = 1.
Proof.
  destruct param_count_adds_over_commas as (_ & Hb & H1 & _). split.
  - apply Hb. vm_compute. repeat constructor.
  - apply H1.
    + vm_compute. intuition discriminate.
    + intros H. inversion H as [| ? ? Hx _]. vm_compute in Hx. discriminate.
Defined.

(** ** The names the rules work with *)

Section Names.

Lemma fold_set_add_In (xs : list string) (s : pyset) (y : string) :
  In y (fold_left set_add xs s) <-> In y s \/ In y xs.
Proof. apply set_update_In. Qed.

Lemma fold_set_update_In {A} (f : A -> list string) (l : list A) (acc : pyset)
    (y : string) :
  In y (fold_left (fun acc a => set_update acc (f a)) l acc)
  <-> In y acc \/ exists a, In a l /\ In y (f a).
Proof.
  revert acc. induction l as [| a l IH]; intros acc; simpl.
  - split; [tauto | intros [H | [a [[] _]]]; exact H].
  - rewrite IH, set_update_In. split.
    + intros [[H | H] | [a' [H1 H2]]]; eauto.
    + intros [H | [a' [[<- | H1] H2]]]; eauto.
Qed.

Lemma fold_set_update_NoDup {A} (f : A -> list string) (l : list A)
    (acc : pyset) :
  NoDup acc -> NoDup (fold_left (fun acc a => set_update acc (f a)) l acc).
Proof.
  revert acc. induction l as [| a l IH]; intros acc H; simpl.
  - exact H.
  - now apply IH, set_update_NoDup.
Qed.

Lemma remove_spaces_chars (s : string) (c : ascii) :
  In c (unstr (remove_spaces s)) <-> In c (unstr s) /\ c <> " "%char.
Proof.
  unfold remove_spaces. rewrite unstr_str, filter_In, negb_true_iff.
  rewrite Ascii.eqb_neq. tauto.
Qed.

End Names.

(** A name in [thrown_exceptions] comes out of a [throws] clause with the
    spaces removed and the commas split away: it holds neither a space nor a
    comma, and the set holds every name once. *)
Theorem thrown_exception_names_have_no_space_or_comma :
  forall impl,
    NoDup (thrown_exceptions impl)
    /\ forall x,
         In x (thrown_exceptions impl) <->
         exists exc,
           In exc (map (group_str 1) (finditer throws_pattern impl))
           /\ In x (split "," (remove_spaces exc))
           /\ ~ In " "%char (unstr x)
           /\ ~ In ","%char (unstr x).
Proof.
  intros impl. split.
  - unfold thrown_exceptions. apply fold_set_update_NoDup. constructor.
  - intros x. unfold thrown_exceptions. rewrite fold_set_update_In. split.
    + intros [[] | [exc [Hexc Hx]]]. exists exc. split; [exact Hexc |].
      split; [exact Hx |].
      unfold split in Hx. apply in_map_iff in Hx.
      destruct Hx as [seg [<- Hseg]]. rewrite unstr_str.
      apply split_chars_piece in Hseg. destruct Hseg as [Hsep Hsub]. split.
      * intros Hin. apply Hsub, remove_spaces_chars in Hin. now destruct Hin.
      * exact Hsep.
    + intros [exc (Hexc & Hx & _)]. right. now exists exc.
Qed.

(** The extracted name sets keep each name once, and they hold exactly the
    names the patterns capture. *)
Lemma extracted_name_sets :
  forall self,
    (NoDup (extract_method_defs self)
     /\ forall x, In x (extract_method_defs self) <->
                  In x (map (group_str 1) (finditer def_pattern (impl_code self))))
    /\ (NoDup (extract_test_methods self)
        /\ forall x, In x (extract_test_methods self) <->
                     In x (map (group_str 1)
                               (finditer test_method_pattern (test_code self))))
    /\ (NoDup (extract_entities_from_tests self)
        /\ forall x, In x (extract_entities_from_tests self) <->
                     In x (map (group_str 1)
                               (finditer entity_pattern (test_code self))))
    /\ (NoDup (tested_exceptions (test_code self))
        /\ forall x, In x (tested_exceptions (test_code self)) <->
                     In x (map (group_str 1)
                               (finditer exc_test_pattern (test_code self)))).
Proof.
  assert (H : forall l : list string,
            NoDup (fold_left set_add l [])
            /\ forall x, In x (fold_left set_add l []) <-> In x l).
  { intros l. split.
    - apply (set_update_NoDup l []). constructor.
    - intros x. rewrite fold_set_add_In. simpl. tauto. }
  intros self. repeat split; try apply H.
  all: intros Hx; now apply H.
Qed.

(** ** What the error rules report, and when a run passes *)

Section Findings.

Lemma is_undefined_true (defs : pyset) (m : string) :
  is_undefined defs m = true <-> ~ In m common_helpers /\ ~ In m defs.
Proof.
  unfold is_undefined. rewrite andb_true_iff, !negb_true_iff, !mem_false.
  tauto.
Qed.

Lemma nil_no_element {A} (l : list A) : l = [] <-> forall x, ~ In x l.
Proof.
  split.
  - intros -> x [].
  - destruct l as [| a l]; [reflexivity |]. intros H. destruct (H a). now left.
Qed.

Lemma test_calls_In (test m a : string) :
  In (m, a) (test_calls test) <-> dict_get m (test_calls test) = Some a.
Proof.
  split; [apply In_dict_get, test_calls_keys_NoDup | apply dict_get_In].
Qed.

Lemma check_signature_In (sigs : dict string) (m a e : string) :
  In e (check_signature sigs [] (m, a))
  <-> exists p,
        dict_get m sigs = Some p
        /\ param_count a <> param_count p
        /\ e = arity_msg m (param_count a) (param_count p).
Proof.
  unfold check_signature. destruct (dict_get m sigs) as [p |].
  - destruct (param_count a =? param_count p) eqn:E; simpl.
    + apply Nat.eqb_eq in E. split; [intros [] |].
      intros [p' ([= <-] & Hne & _)]. contradiction.
    + apply Nat.eqb_neq in E. split.
      * intros [<- | []]. now exists p.
      * intros [p' ([= <-] & _ & ->)]. now left.
  - simpl. split; [intros [] | intros [p' (Hp & _)]; discriminate].
Qed.

Lemma undefined_method_errors_In :
  forall h self e,
    In e (undefined_method_errors h self)
    <-> exists obj m,
          In (obj, m) (call_sites (test_code self))
          /\ ~ In m common_helpers
          /\ ~ In m (extract_method_defs self)
          /\ e = undefined_msg m.
Proof.
  intros h self e. rewrite undefined_method_errors_eq.
  pose proof (check_calls_perm h (extract_method_defs self)
                (extract_method_calls self)) as P.
  split.
  - intros H. apply (Permutation_in _ P) in H. apply in_map_iff in H.
    destruct H as [[obj m] [<- H]]. apply filter_In in H. destruct H as [Hin Hu].
    apply (proj1 (calls_of_sites_pairs (call_sites (test_code self)) (obj, m)))
      in Hin.
    unfold undefined_pair in Hu. simpl in Hu.
    apply is_undefined_true in Hu. destruct Hu as [Hh Hd].
    exists obj, m. repeat split; assumption.
  - intros (obj & m & Hin & Hh & Hd & ->).
    apply (Permutation_in _ (Permutation_sym P)).
    apply in_map_iff. exists (obj, m). split; [reflexivity |].
    apply filter_In. split.
    + now apply calls_of_sites_pairs.
    + apply is_undefined_true. now split.
Qed.

Lemma arity_errors_In :
  forall self e,
    In e (arity_errors self)
    <-> exists m a p,
          dict_get m (test_calls (test_code self)) = Some a
          /\ dict_get m (impl_sigs (impl_code self)) = Some p
          /\ param_count a <> param_count p
          /\ e = arity_msg m (param_count a) (param_count p).
Proof.
  intros self e. rewrite arity_errors_flat, in_flat_map. split.
  - intros [[m a] [Hin He]]. apply test_calls_In in Hin.
    apply check_signature_In in He. destruct He as (p & Hp & Hne & ->).
    now exists m, a, p.
  - intros (m & a & p & Ha & Hp & Hne & ->). exists (m, a). split.
    + now apply test_calls_In.
    + apply check_signature_In. now exists p.
Qed.

End Findings.

(** The undefined-method rule reports a method exactly when it is called on
    some receiver in the tests, is not one of the six helper names and is
    not defined; it never reports a helper or a defined method. *)
Theorem undefined_method_errors_are_the_undefined_calls :
  forall h self e,
    In e (undefined_method_errors h self)
    <-> exists obj m,
          In (obj, m) (call_sites (test_code self))
          /\ ~ In m common_helpers
          /\ ~ In m (extract_method_defs self)
          /\ e = undefined_msg m.
Proof. exact undefined_method_errors_In. Qed.

(** The arity rule reports a method exactly when its entry in the call
    table and its entry in the signature table give different counts; a
    method without a signature is never reported by this rule. *)
Theorem arity_errors_are_the_count_mismatches :
  forall self e,
    In e (arity_errors self)
    <-> exists m a p,
          dict_get m (test_calls (test_code self)) = Some a
          /\ dict_get m (impl_sigs (impl_code self)) = Some p
          /\ param_count a <> param_count p
          /\ e = arity_msg m (param_count a) (param_count p).
Proof. exact arity_errors_In. Qed.

(** A fresh instance passes exactly when every method called on a receiver
    is a helper or is defined, and every method that has both a call entry
    and a signature has the same count on both sides.  Warnings play no
    part. *)
Theorem run_passes_iff_no_undefined_call_and_no_count_mismatch :
  forall h test impl,
    let self := init test impl in
    fst (fst (run_all_checks h self)) = true
    <-> (forall obj m,
           In (obj, m) (call_sites test) ->
           In m common_helpers \/ In m (extract_method_defs self))
        /\ (forall m a p,
              dict_get m (test_calls test) = Some a ->
              dict_get m (impl_sigs impl) = Some p ->
              param_count a = param_count p).
Proof.
  intros h test impl self. rewrite run_all_checks_success.
  destruct (run_all_checks_state h self) as (_ & _ & He & _).
  rewrite He. cbn [self init errors app]. fold self.
  rewrite Nat.eqb_eq, length_zero_iff_nil.
  assert (E : undefined_method_errors h self ++ arity_errors self = []
              <-> undefined_method_errors h self = [] /\ arity_errors self = []).
  { split; [apply app_eq_nil | intros [-> ->]; reflexivity]. }
  rewrite E, !nil_no_element. split.
  - intros [H1 H4]. split.
    + intros obj m Hin.
      destruct (mem m common_helpers) eqn:Eh; [left; now apply mem_In |].
      destruct (mem m (extract_method_defs self)) eqn:Ed;
        [right; now apply mem_In |].
      exfalso. apply (H1 (undefined_msg m)).
      apply undefined_method_errors_In.
      exists obj, m. repeat split; try assumption; now apply mem_false.
    + intros m a p Ha Hp.
      destruct (Nat.eq_dec (param_count a) (param_count p)) as [Hc | Hc];
        [exact Hc |].
      exfalso. apply (H4 (arity_msg m (param_count a) (param_count p))).
      apply arity_errors_In. now exists m, a, p.
  - intros [H1 H4]. split.
    + intros e He1. apply undefined_method_errors_In in He1.
      destruct He1 as (obj & m & Hin & Hh & Hd & _).
      destruct (H1 obj m Hin); contradiction.
    + intros e He4. apply arity_errors_In in He4.
      destruct He4 as (m & a & p & Ha & Hp & Hne & _).
      apply Hne. now apply (H4 m a p).
Qed.

(** ** What one run adds to an instance *)

(** [run_all_checks] only appends: the texts stay, what the instance held
    stays in front, the new errors are those of rule 1 and then rule 4, and
    one run adds at most two warnings, however many methods or exception
    types lack a test. *)
Theorem run_all_checks_appends_at_most_two_warnings :
  forall h self,
    let self' := snd (run_all_checks h self) in
    test_code self' = test_code self
    /\ impl_code self' = impl_code self
    /\ errors self'
       = errors self ++ undefined_method_errors h self ++ arity_errors self
    /\ exists new_warnings,
         warnings self' = warnings self ++ new_warnings
         /\ length new_warnings <= 2.
Proof.
  intros h self self'.
  destruct (run_all_checks_state h self) as (Ht & Hi & He & Hw).
  fold self' in Ht, Hi, He, Hw. repeat split; try assumption.
  exists (coverage_warnings h self ++ exception_warnings h self).
  split; [exact Hw |].
  rewrite length_app, coverage_warnings_eq, exception_warnings_eq.
  destruct (nonempty (uncovered_methods h self)),
           (nonempty (untested_exceptions h self)); simpl; lia.
Qed.

(** The value each validator returns.  The two error rules answer for the
    whole error list of the instance, so each returns [False] as soon as an
    earlier rule has left an error, even when it finds nothing itself; the
    two warning rules always return [True] and leave the errors alone, and
    the error rules leave the warnings alone. *)
Theorem validators_return_the_accumulated_verdict :
  forall h self,
    (fst (validate_method_match h self) = true
     <-> errors self = [] /\ undefined_method_errors h self = [])
    /\ (fst (validate_signature_match self) = true
        <-> errors self = [] /\ arity_errors self = [])
    /\ warnings (snd (validate_method_match h self)) = warnings self
    /\ warnings (snd (validate_signature_match self)) = warnings self
    /\ fst (validate_test_coverage h self) = true
    /\ errors (snd (validate_test_coverage h self)) = errors self
    /\ fst (validate_exception_handling h self) = true
    /\ errors (snd (validate_exception_handling h self)) = errors self.
Proof.
  intros h self.
  assert (Hnil : forall a b : list string,
            (length (a ++ b) =? 0) = true <-> a = [] /\ b = []).
  { intros a b. rewrite Nat.eqb_eq, length_zero_iff_nil. split.
    - apply app_eq_nil.
    - intros [-> ->]. reflexivity. }
  split; [| split; [| split; [| split; [| split; [| split; [| split]]]]]].
  - change (fst (validate_method_match h self))
      with (length (errors (snd (validate_method_match h self))) =? 0).
    rewrite method_match_errors. apply Hnil.
  - change (fst (validate_signature_match self))
      with (length (errors (snd (validate_signature_match self))) =? 0).
    rewrite signature_match_errors. apply Hnil.
  - reflexivity.
  - reflexivity.
  - reflexivity.
  - unfold validate_test_coverage. simpl. destruct (nonempty _); reflexivity.
  - reflexivity.
  - unfold validate_exception_handling. simpl.
    destruct (nonempty _); reflexivity.
Qed.


(** ** The driver *)

Section DriverOutput.

Lemma print_block_lines (result : report) (key title : string)
    (l : list string) (out : list string) :
  dict_get key result = Some (VList l) ->
  print_block result key title out
  = (out ++ (if nonempty l
             then (lf ++ title ++ " (" ++ str_of_nat (length l) ++ "):")%string
                  :: map (fun x => ("  - " ++ x)%string) l
             else []),
     inl tt).
Proof.
  intros Hk. unfold print_block, get_truthy, subscript. rewrite Hk.
  destruct (nonempty l).
  - unfold bind, ret, print. simpl. rewrite print_each_returns.
    now rewrite <- app_assoc.
  - unfold ret. now rewrite app_nil_r.
Qed.

End DriverOutput.

(** What [print_report] prints for a report with the five keys: the
    three-line header, the verdict line chosen by [success] alone, the
    numbered error block only when there are errors, the warning block only
    when there are warnings, each with one line per finding, and the total
    line with the two counts of the report. *)
Theorem print_report_output :
  forall (b : bool) (es wns : list string) (ec wc : nat),
    let block (title : string) (l : list string) :=
      if nonempty l
      then (lf ++ title ++ " (" ++ str_of_nat (length l) ++ "):")%string
           :: map (fun x => ("  - " ++ x)%string) l
      else [] in
    print_report
      [("success", VBool b); ("errors", VList es); ("warnings", VList wns);
       ("error_count", VInt ec); ("warning_count", VInt wc)] []
    = ([(lf ++ rule60)%string; "TEST-IMPLEMENTATION MATCHER REPORT"; rule60;
        if b then "✅ PASSED: All tests match implementation"
        else "❌ FAILED: Found mismatches"]
       ++ block "🔴 ERRORS" es
       ++ block "⚠️  WARNINGS" wns
       ++ [(lf ++ rule60)%string;
           ("Total: " ++ str_of_nat ec ++ " errors, " ++ str_of_nat wc
            ++ " warnings")%string;
           (rule60 ++ lf)%string],
       inl tt).
Proof.
  intros b es wns ec wc block.
  set (result := [("success", VBool b); ("errors", VList es);
                  ("warnings", VList wns); ("error_count", VInt ec);
                  ("warning_count", VInt wc)]).
  unfold print_report. destruct b.
  all: do 5 (erewrite bind_returns by reflexivity).
  all: erewrite bind_returns
         by (apply (print_block_lines result "errors" _ es); reflexivity).
  all: erewrite bind_returns
         by (apply (print_block_lines result "warnings" _ wns); reflexivity).
  all: do 4 (erewrite bind_returns by reflexivity).
  all: unfold print, block; simpl; rewrite <- !app_assoc; reflexivity.
Qed.

(** With fewer than two path arguments the driver prints the usage line
    and calls [sys.exit(1)] without reading a file or running a rule;
    arguments after the second path are ignored. *)
Theorem driver_needs_two_paths :
  (forall h fs argv,
     length argv < 3 ->
     main h fs argv
     = (["Usage: python test_impl_matcher.py <test_file> <impl_file>"], Exit 1))
  /\ (forall h fs prog prog' test_file impl_file rest,
        main h fs (prog :: test_file :: impl_file :: rest)
        = main h fs [prog'; test_file; impl_file]).
Proof.
  split.
  - intros h fs argv Hlen.
    destruct argv as [| a [| b [| c rest]]]; try reflexivity.
    simpl in Hlen. lia.
  - reflexivity.
Qed.

Lemma driver_needs_two_paths_witness :
  main perm_refl_order (fs_of [("FooTest.kt", "svc.foo()")])
       ["test_impl_matcher.py"; "FooTest.kt"]
  = (["Usage: python test_impl_matcher.py <test_file> <impl_file>"], Exit 1).
Proof.
  destruct driver_needs_two_paths as [H _]. apply H. simpl. lia.
Defined.

(** The failure result of [validate_files] names the first path that cannot
    be read, the test file before the implementation file, and holds the
    two keys [success] and [error] only: no rule runs and no report field is
    there, whatever the other file holds. *)
Theorem validate_files_reports_first_missing_path :
  forall h fs test_file impl_file,
    let failure (path : string) : report :=
      [("success", VBool false);
       ("error",
        VStr ("File not found: [Errno 2] No such file or directory: "
              ++ repr_str path))] in
    (fs test_file = None ->
     validate_files h fs test_file impl_file = failure test_file)
    /\ (fs test_file <> None -> fs impl_file = None ->
        validate_files h fs test_file impl_file = failure impl_file)
    /\ (fs test_file = None \/ fs impl_file = None ->
        dict_get "errors" (validate_files h fs test_file impl_file) = None
        /\ dict_get "warnings" (validate_files h fs test_file impl_file) = None
        /\ dict_get "error_count" (validate_files h fs test_file impl_file) = None
        /\ dict_get "warning_count" (validate_files h fs test_file impl_file)
           = None).
Proof.
  intros h fs test_file impl_file failure. unfold validate_files, read_text.
  split; [| split].
  - intros ->. reflexivity.
  - intros Ht ->. destruct (fs test_file); [reflexivity | contradiction].
  - intros [-> | Hi]; [repeat split |].
    destruct (fs test_file); rewrite ?Hi; repeat split.
Qed.

Lemma validate_files_reports_first_missing_path_witness :
  validate_files perm_refl_order (fs_of [("FooTest.kt", "svc.foo()")])
                 "FooTest.kt" "Foo.kt"
  = [("success", VBool false);
     ("error",
      VStr "File not found: [Errno 2] No such file or directory: 'Foo.kt'")].
Proof.
  destruct (validate_files_reports_first_missing_path
              perm_refl_order (fs_of [("FooTest.kt", "svc.foo()")])
              "FooTest.kt" "Foo.kt") as (_ & H & _).
  rewrite H; [reflexivity | discriminate | reflexivity].
Defined.

(** Whenever one of the two paths names no file, the driver prints the
    header, the FAILED line and the rule line, and then stops on the
    [KeyError] for [error_count]: neither the message of the failure result
    nor the total line is printed, and [sys.exit] is not reached. *)
Theorem driver_on_missing_file_stops_in_print_report :
  forall h fs prog test_file impl_file rest,
    fs test_file = None \/ fs impl_file = None ->
    main h fs (prog :: test_file :: impl_file :: rest)
    = ([(lf ++ rule60)%string; "TEST-IMPLEMENTATION MATCHER REPORT"; rule60;
        "❌ FAILED: Found mismatches"; (lf ++ rule60)%string],
       Unhandled (KeyError "error_count")).
Proof.
  intros h fs prog test_file impl_file rest H.
  destruct (validate_files_missing h fs test_file impl_file H) as [path Hv].
  unfold main. rewrite Hv. reflexivity.
Qed.

Lemma driver_on_missing_file_witness :
  snd (main perm_refl_order (fs_of [("FooTest.kt", "svc.foo()")])
         ["test_impl_matcher.py"; "FooTest.kt"; "Foo.kt"])
  = Unhandled (KeyError "error_count").
Proof.
  rewrite (driver_on_missing_file_stops_in_print_report
             perm_refl_order (fs_of [("FooTest.kt", "svc.foo()")])
             "test_impl_matcher.py" "FooTest.kt" "Foo.kt" []).
  - reflexivity.
  - right. reflexivity.
Defined.

(** ** What the extraction patterns can match *)

Section Patterns.

Lemma word_sound (l : chars) (s : chars) (cs : caps) (k : cont)
    (res : caps * chars) :
  rmatch (Word l) s cs k = Some res ->
  exists s', s = l ++ s' /\ k s' cs = Some res.
Proof.
  revert s. induction l as [| c l IH]; intros s H.
  - now exists s.
  - simpl Word in H. rewrite rmatch_seq in H. apply lit_sound in H.
    destruct H as (t & -> & H). apply IH in H. destruct H as (s' & -> & H).
    now exists s'.
Qed.

Lemma text_sound (t : string) (s : chars) (cs : caps) (k : cont)
    (res : caps * chars) :
  rmatch (Text t) s cs k = Some res ->
  exists s', s = unstr t ++ s' /\ k s' cs = Some res.
Proof. apply word_sound. Qed.

Lemma alt_sound (r1 r2 : regex) (s : chars) (cs : caps) (k : cont)
    (res : caps * chars) :
  rmatch (Alt r1 r2) s cs k = Some res ->
  rmatch r1 s cs k = Some res \/ rmatch r2 s cs k = Some res.
Proof.
  simpl. unfold orelse. destruct (rmatch r1 s cs k); [now left | now right].
Qed.

Lemma class_sound (p : ascii -> bool) (s : chars) (cs : caps) (k : cont)
    (res : caps * chars) :
  rmatch (Class p) s cs k = Some res ->
  exists x t, s = x :: t /\ p x = true /\ k t cs = Some res.
Proof.
  simpl. destruct s as [| x t]; [discriminate |].
  destruct (p x) eqn:Px; [| discriminate].
  intros H. now exists x, t.
Qed.

Lemma plus_class_sound (p : ascii -> bool) (k : cont) (s : chars) (cs : caps)
    (res : caps * chars) :
  rmatch (Plus (Class p)) s cs k = Some res ->
  exists run s',
    s = run ++ s' /\ run <> [] /\ Forall (fun c => p c = true) run /\
    k s' cs = Some res.
Proof.
  unfold Plus. rewrite rmatch_seq. intros H. apply class_sound in H.
  destruct H as (x & t & -> & Px & H).
  rewrite rmatch_star in H. apply star_class_sound in H.
  destruct H as (pre & s' & -> & Hp & Hk).
  exists (x :: pre), s'. repeat split; [discriminate | now constructor | exact Hk].
Qed.

Lemma rmatch_group (i : nat) (r : regex) (s : chars) (cs : caps) (k : cont) :
  rmatch (Group i r) s cs k
  = rmatch r s cs (fun s' cs' => k s' ((i, consumed s s') :: cs')).
Proof. reflexivity. Qed.

(** [\s*\(] at the end of a pattern. *)
Lemma ws_lparen_sound (s : chars) (cs : caps) (res : caps * chars) :
  rmatch (Seq ws lparen) s cs accept = Some res ->
  exists sp rest,
    s = sp ++ "("%char :: rest /\ Forall (fun c => is_space c = true) sp /\
    res = (cs, rest).
Proof.
  rewrite rmatch_seq. unfold ws. rewrite rmatch_star. intros H.
  apply star_class_sound in H. destruct H as (sp & s' & -> & Hsp & H).
  unfold lparen in H. apply lit_sound in H. destruct H as (rest & -> & H).
  injection H as <-. now exists sp, rest.
Qed.

Lemma call_pattern_sound (s : chars) (m : caps) (rest : chars) :
  match_here call_pattern s = Some (m, rest) ->
  exists obj method sp,
    s = obj ++ "."%char :: method ++ sp ++ "("%char :: rest /\
    m = [(2, method); (1, obj)] /\
    obj <> [] /\ Forall (fun c => is_word c = true) obj /\
    method <> [] /\ Forall (fun c => is_word c = true) method /\
    Forall (fun c => is_space c = true) sp.
Proof.
  unfold match_here, call_pattern. rewrite rmatch_seq. intros H.
  unfold w in H. apply group_plus_class_sound in H.
  destruct H as (obj & s1 & -> & Hne1 & Hw1 & H).
  rewrite rmatch_seq in H. apply lit_sound in H. destruct H as (s2 & -> & H).
  rewrite rmatch_seq in H. apply group_plus_class_sound in H.
  destruct H as (method & s3 & -> & Hne2 & Hw2 & H).
  apply ws_lparen_sound in H. destruct H as (sp & rest' & -> & Hsp & [= -> ->]).
  exists obj, method, sp. repeat split; assumption.
Qed.

Lemma def_pattern_sound (s : chars) (m : caps) (rest : chars) :
  match_here def_pattern s = Some (m, rest) ->
  exists gap name sp,
    s = unstr "fun" ++ gap ++ name ++ sp ++ "("%char :: rest /\
    m = [(1, name)] /\
    gap <> [] /\ Forall (fun c => is_space c = true) gap /\
    name <> [] /\ Forall (fun c => is_word c = true) name /\
    Forall (fun c => is_space c = true) sp.
Proof.
  unfold match_here, def_pattern. rewrite rmatch_seq. intros H.
  apply text_sound in H. destruct H as (s1 & -> & H).
  rewrite rmatch_seq in H. apply plus_class_sound in H.
  destruct H as (gap & s2 & -> & Hg & Hgs & H).
  rewrite rmatch_seq in H. unfold w in H. apply group_plus_class_sound in H.
  destruct H as (name & s3 & -> & Hne & Hw & H).
  apply ws_lparen_sound in H. destruct H as (sp & rest' & -> & Hsp & [= -> ->]).
  exists gap, name, sp. repeat split; assumption.
Qed.

Lemma test_method_pattern_sound (s : chars) (m : caps) (rest : chars) :
  match_here test_method_pattern s = Some (m, rest) ->
  exists gap prefix tail sp,
    s = unstr "fun" ++ gap ++ (unstr prefix ++ tail) ++ sp ++ "("%char :: rest /\
    m = [(1, unstr prefix ++ tail)] /\
    In prefix ["test"; "should"; "when"] /\
    gap <> [] /\ Forall (fun c => is_space c = true) gap /\
    Forall (fun c => is_word c = true) tail /\
    Forall (fun c => is_space c = true) sp.
Proof.
  unfold match_here, test_method_pattern. rewrite rmatch_seq. intros H.
  apply text_sound in H. destruct H as (s1 & -> & H).
  rewrite rmatch_seq in H. apply plus_class_sound in H.
  destruct H as (gap & s2 & -> & Hg & Hgs & H).
  rewrite rmatch_seq, rmatch_group, rmatch_seq in H.
  assert (Hp : exists prefix s3,
             In prefix ["test"; "should"; "when"] /\ s2 = unstr prefix ++ s3 /\
             rmatch (Star true w) s3 []
               (fun s' cs' =>
                  rmatch (Seq ws lparen) s' ((1, consumed s2 s') :: cs') accept)
             = Some (m, rest)).
  { apply alt_sound in H. destruct H as [H | H].
    - apply text_sound in H. destruct H as (s3 & -> & H).
      exists "test", s3. simpl In. auto.
    - apply alt_sound in H. destruct H as [H | H];
        apply text_sound in H; destruct H as (s3 & -> & H).
      + exists "should", s3. simpl In. auto.
      + exists "when", s3. simpl In. auto. }
  destruct Hp as (prefix & s3 & Hin & -> & Hs).
  unfold w in Hs. rewrite rmatch_star in Hs. apply star_class_sound in Hs.
  destruct Hs as (tail & s4 & -> & Hw & Hs).
  rewrite app_assoc, consumed_app in Hs.
  apply ws_lparen_sound in Hs.
  destruct Hs as (sp & rest' & -> & Hsp & [= -> ->]).
  exists gap, prefix, tail, sp. repeat split; try assumption.
  now rewrite <- !app_assoc.
Qed.

Lemma entity_pattern_sound (s : chars) (m : caps) (rest : chars) :
  match_here entity_pattern s = Some (m, rest) ->
  exists gap entity suffix,
    s = unstr "class" ++ gap ++ entity ++ unstr suffix ++ rest /\
    m = [(1, entity)] /\
    In suffix ["ServiceTest"; "RepositoryTest"; "ControllerTest"] /\
    gap <> [] /\ Forall (fun c => is_space c = true) gap /\
    entity <> [] /\ Forall (fun c => is_word c = true) entity.
Proof.
  unfold match_here, entity_pattern. rewrite rmatch_seq. intros H.
  apply text_sound in H. destruct H as (s1 & -> & H).
  rewrite rmatch_seq in H. apply plus_class_sound in H.
  destruct H as (gap & s2 & -> & Hg & Hgs & H).
  rewrite rmatch_seq in H. unfold w in H. apply group_plus_class_sound in H.
  destruct H as (entity & s3 & -> & Hne & Hw & H).
  assert (Hp : exists suffix,
             In suffix ["ServiceTest"; "RepositoryTest"; "ControllerTest"] /\
             s3 = unstr suffix ++ rest /\ m = [(1, entity)]).
  { apply alt_sound in H. destruct H as [H | H].
    - apply text_sound in H. destruct H as (s4 & -> & [= <- <-]).
      exists "ServiceTest". simpl In. auto.
    - apply alt_sound in H. destruct H as [H | H];
        apply text_sound in H; destruct H as (s4 & -> & [= <- <-]).
      + exists "RepositoryTest". simpl In. auto.
      + exists "ControllerTest". simpl In. auto. }
  destruct Hp as (suffix & Hin & -> & ->).
  exists gap, entity, suffix. repeat split; assumption.
Qed.

Lemma exc_test_pattern_sound (s : chars) (m : caps) (rest : chars) :
  match_here exc_test_pattern s = Some (m, rest) ->
  exists gap name,
    s = unstr "assertThatThrownBy" ++ gap ++ unstr ".isInstanceOf(" ++ name ++ rest /\
    m = [(1, name)] /\
    name <> [] /\ Forall (fun c => is_word c = true) name.
Proof.
  unfold match_here, exc_test_pattern. rewrite rmatch_seq. intros H.
  apply text_sound in H. destruct H as (s1 & -> & H).
  rewrite rmatch_seq, rmatch_star in H. apply star_class_sound in H.
  destruct H as (gap & s2 & -> & _ & H).
  rewrite rmatch_seq in H. apply text_sound in H. destruct H as (s3 & -> & H).
  unfold w in H. apply group_plus_class_sound in H.
  destruct H as (name & s4 & -> & Hne & Hw & [= <- <-]).
  exists gap, name. repeat split; assumption.
Qed.

Lemma finditer_sound (r : regex) (text : string) (m : caps) :
  In m (finditer r text) ->
  exists before here rest,
    unstr text = before ++ here /\ match_here r here = Some (m, rest).
Proof. apply scan_sound. Qed.

End Patterns.

(** A call site is an occurrence of [receiver.method(] in the test text:
    receiver and method are non-empty runs of word characters around one
    dot, and only white space may stand between the method and its opening
    parenthesis. *)
Theorem call_sites_are_receiver_dot_method_occurrences :
  forall test obj method,
    In (obj, method) (call_sites test) ->
    exists before o m sp rest,
      unstr test = before ++ o ++ "."%char :: m ++ sp ++ "("%char :: rest
      /\ obj = str o /\ method = str m
      /\ o <> [] /\ Forall (fun c => is_word c = true) o
      /\ m <> [] /\ Forall (fun c => is_word c = true) m
      /\ Forall (fun c => is_space c = true) sp.
Proof.
  intros test obj method H. unfold call_sites in H. apply in_map_iff in H.
  destruct H as (cs & Hg & H). apply finditer_sound in H.
  destruct H as (before & here & rest & Ht & Hm).
  apply call_pattern_sound in Hm.
  destruct Hm as (o & m & sp & -> & -> & Ho & Hwo & Hm & Hwm & Hsp).
  injection Hg as <- <-.
  exists before, o, m, sp, rest. repeat split; assumption.
Qed.

Lemma call_sites_witness :
  exists before o m sp rest,
    unstr "verify(repo.save (x))"
    = before ++ o ++ "."%char :: m ++ sp ++ "("%char :: rest
    /\ "repo" = str o /\ "save" = str m
    /\ o <> [] /\ Forall (fun c => is_word c = true) o
    /\ m <> [] /\ Forall (fun c => is_word c = true) m
    /\ Forall (fun c => is_space c = true) sp.
Proof.
  apply (call_sites_are_receiver_dot_method_occurrences "verify(repo.save (x))").
  vm_compute. now left.
Defined.

(** A defined method is a non-empty run of word characters that follows
    [fun] and at least one white-space character in the implementation text
    and is followed, after optional white space, by an opening
    parenthesis. *)
Theorem method_defs_are_fun_declarations :
  forall self x,
    In x (extract_method_defs self) ->
    exists before gap name sp rest,
      unstr (impl_code self)
      = before ++ unstr "fun" ++ gap ++ name ++ sp ++ "("%char :: rest
      /\ x = str name
      /\ gap <> [] /\ Forall (fun c => is_space c = true) gap
      /\ name <> [] /\ Forall (fun c => is_word c = true) name
      /\ Forall (fun c => is_space c = true) sp.
Proof.
  intros self x H. apply extracted_name_sets in H. apply in_map_iff in H.
  destruct H as (cs & Hg & H). apply finditer_sound in H.
  destruct H as (before & here & rest & Ht & Hm).
  apply def_pattern_sound in Hm.
  destruct Hm as (gap & name & sp & -> & -> & Hg1 & Hg2 & Hn & Hw & Hsp).
  exists before, gap, name, sp, rest. repeat split; try assumption.
  now rewrite <- Hg.
Qed.

Lemma method_defs_witness :
  exists before gap name sp rest,
    unstr "override fun save (item: Item)"
    = before ++ unstr "fun" ++ gap ++ name ++ sp ++ "("%char :: rest
    /\ "save" = str name
    /\ gap <> [] /\ Forall (fun c => is_space c = true) gap
    /\ name <> [] /\ Forall (fun c => is_word c = true) name
    /\ Forall (fun c => is_space c = true) sp.
Proof.
  apply (method_defs_are_fun_declarations (init "" "override fun save (item: Item)")).
  vm_compute. now left.
Defined.

(** A test method name as [extract_test_methods] returns it starts with
    [test], [should] or [when], goes on with word characters only, and
    stands in a [fun] declaration of the test text. *)
Theorem test_method_names_start_with_a_test_prefix :
  forall self x,
    In x (extract_test_methods self) ->
    exists before gap prefix tail sp rest,
      unstr (test_code self)
      = before ++ unstr "fun" ++ gap ++ (unstr prefix ++ tail) ++ sp
        ++ "("%char :: rest
      /\ x = (prefix ++ str tail)%string
      /\ In prefix ["test"; "should"; "when"]
      /\ gap <> [] /\ Forall (fun c => is_space c = true) gap
      /\ Forall (fun c => is_word c = true) tail
      /\ Forall (fun c => is_space c = true) sp.
Proof.
  intros self x H. apply extracted_name_sets in H. apply in_map_iff in H.
  destruct H as (cs & Hg & H). apply finditer_sound in H.
  destruct H as (before & here & rest & Ht & Hm).
  apply test_method_pattern_sound in Hm.
  destruct Hm as (gap & prefix & tail & sp & -> & -> & Hin & Hg1 & Hg2 & Hw & Hsp).
  exists before, gap, prefix, tail, sp, rest. repeat split; try assumption.
  rewrite <- Hg. unfold group_str. simpl group.
  rewrite <- (str_unstr (prefix ++ str tail)), unstr_app, unstr_str.
  reflexivity.
Qed.

Lemma test_method_names_witness :
  exists before gap prefix tail sp rest,
    unstr "@Test fun shouldSaveItem() {}"
    = before ++ unstr "fun" ++ gap ++ (unstr prefix ++ tail) ++ sp
      ++ "("%char :: rest
    /\ "shouldSaveItem" = (prefix ++ str tail)%string
    /\ In prefix ["test"; "should"; "when"]
    /\ gap <> [] /\ Forall (fun c => is_space c = true) gap
    /\ Forall (fun c => is_word c = true) tail
    /\ Forall (fun c => is_space c = true) sp.
Proof.
  apply (test_method_names_start_with_a_test_prefix
           (init "@Test fun shouldSaveItem() {}" "")).
  vm_compute. now left.
Defined.

(** An entity as [extract_entities_from_tests] returns it is a non-empty
    run of word characters between [class] with white space and one of the
    suffixes [ServiceTest], [RepositoryTest], [ControllerTest] in the test
    text. *)
Theorem entities_come_from_test_class_names :
  forall self x,
    In x (extract_entities_from_tests self) ->
    exists before gap entity suffix rest,
      unstr (test_code self)
      = before ++ unstr "class" ++ gap ++ entity ++ unstr suffix ++ rest
      /\ x = str entity
      /\ In suffix ["ServiceTest"; "RepositoryTest"; "ControllerTest"]
      /\ gap <> [] /\ Forall (fun c => is_space c = true) gap
      /\ entity <> [] /\ Forall (fun c => is_word c = true) entity.
Proof.
  intros self x H. apply extracted_name_sets in H. apply in_map_iff in H.
  destruct H as (cs & Hg & H). apply finditer_sound in H.
  destruct H as (before & here & rest & Ht & Hm).
  apply entity_pattern_sound in Hm.
  destruct Hm as (gap & entity & suffix & -> & -> & Hin & Hg1 & Hg2 & Hn & Hw).
  exists before, gap, entity, suffix, rest. repeat split; try assumption.
  now rewrite <- Hg.
Qed.

Lemma entities_witness :
  exists before gap entity suffix rest,
    unstr "class MemberServiceTest {"
    = before ++ unstr "class" ++ gap ++ entity ++ unstr suffix ++ rest
    /\ "Member" = str entity
    /\ In suffix ["ServiceTest"; "RepositoryTest"; "ControllerTest"]
    /\ gap <> [] /\ Forall (fun c => is_space c = true) gap
    /\ entity <> [] /\ Forall (fun c => is_word c = true) entity.
Proof.
  apply (entities_come_from_test_class_names (init "class MemberServiceTest {" "")).
  vm_compute. now left.
Defined.

(** An exception type counts as tested only when its name, a non-empty run
    of word characters, follows [.isInstanceOf(] somewhere after an
    [assertThatThrownBy] in the test text. *)
Theorem tested_exceptions_follow_an_assertion :
  forall test x,
    In x (tested_exceptions test) ->
    exists before gap name rest,
      unstr test
      = before ++ unstr "assertThatThrownBy" ++ gap ++ unstr ".isInstanceOf("
        ++ name ++ rest
      /\ x = str name
      /\ name <> [] /\ Forall (fun c => is_word c = true) name.
Proof.
  intros test x H.
  apply (proj2 (proj2 (proj2 (proj2 (extracted_name_sets (init test ""))))))
    in H.
  apply in_map_iff in H. destruct H as (cs & Hg & H).
  apply finditer_sound in H. destruct H as (before & here & rest & Ht & Hm).
  apply exc_test_pattern_sound in Hm.
  destruct Hm as (gap & name & -> & -> & Hn & Hw).
  exists before, gap, name, rest. repeat split; try assumption.
  now rewrite <- Hg.
Qed.

Lemma tested_exceptions_witness :
  exists before gap name rest,
    unstr "assertThatThrownBy { f() }.isInstanceOf(NotFound::class.java)"
    = before ++ unstr "assertThatThrownBy" ++ gap ++ unstr ".isInstanceOf("
      ++ name ++ rest
    /\ "NotFound" = str name
    /\ name <> [] /\ Forall (fun c => is_word c = true) name.
Proof.
  apply (tested_exceptions_follow_an_assertion
           "assertThatThrownBy { f() }.isInstanceOf(NotFound::class.java)").
  vm_compute. now left.
Defined.

(** ** A call and a definition written plainly are found as written *)

Section Completeness.

Lemma lit_complete (c : ascii) (t : chars) (cs : caps) (k : cont) :
  rmatch (Lit c) (c :: t) cs k = k t cs.
Proof. simpl. now rewrite Ascii.eqb_refl. Qed.

Lemma word_complete (l : chars) (s : chars) (cs : caps) (k : cont) :
  rmatch (Word l) (l ++ s) cs k = k s cs.
Proof.
  induction l as [| c l IH]; [reflexivity |].
  simpl Word. rewrite rmatch_seq. simpl app. now rewrite lit_complete.
Qed.

Lemma class_step (p : ascii -> bool) (x : ascii) (t : chars) (cs : caps)
    (k : cont) :
  rmatch (Class p) (x :: t) cs k = if p x then k t cs else None.
Proof. reflexivity. Qed.

Lemma shorter_tail (x : ascii) (t : chars) :
  (length t <? length (x :: t)) = true.
Proof. apply Nat.ltb_lt. simpl. lia. Qed.

(** A greedy repetition of a class reads the whole run when the rest of
    the pattern matches after it. *)
Lemma greedy_star_class_complete (p : ascii -> bool) (k : cont) (run : chars) :
  forall (n : nat) (s' : chars) (cs : caps) (res : caps * chars),
    Forall (fun c => p c = true) run ->
    (forall c t, s' = c :: t -> p c = false) ->
    length (run ++ s') <= n ->
    k s' cs = Some res ->
    star_loop (rmatch (Class p)) true k n (run ++ s') cs = Some res.
Proof.
  induction run as [| x run IH]; intros n s' cs res Hrun Hstop Hn Hk;
    rewrite star_loop_eq; cbv zeta beta.
  - change ([] ++ s') with s'. destruct n as [| n]; unfold orelse.
    + exact Hk.
    + simpl rmatch. destruct s' as [| c t]; [exact Hk |].
      rewrite (Hstop c t eq_refl). exact Hk.
  - change ((x :: run) ++ s') with (x :: run ++ s') in *.
    destruct n as [| n]; [simpl in Hn; lia |].
    inversion Hrun as [| ? ? Px Hrun']; subst.
    rewrite class_step, Px, shorter_tail.
    rewrite (IH n s' cs res Hrun' Hstop); [reflexivity | | exact Hk].
    simpl in Hn. lia.
Qed.

(** A lazy repetition of a class reads up to the first place where the
    rest of the pattern matches. *)
Lemma lazy_star_class_complete (p : ascii -> bool) (k : cont) (run : chars) :
  forall (n : nat) (s' : chars) (cs : caps) (res : caps * chars),
    Forall (fun c => p c = true) run ->
    (forall pre1 c pre2, run = pre1 ++ c :: pre2 -> k (c :: pre2 ++ s') cs = None) ->
    length (run ++ s') <= n ->
    k s' cs = Some res ->
    star_loop (rmatch (Class p)) false k n (run ++ s') cs = Some res.
Proof.
  induction run as [| x run IH]; intros n s' cs res Hrun Hfirst Hn Hk;
    rewrite star_loop_eq; cbv zeta beta.
  - change ([] ++ s') with s'. unfold orelse. now rewrite Hk.
  - change ((x :: run) ++ s') with (x :: run ++ s') in *.
    destruct n as [| n]; [simpl in Hn; lia |].
    inversion Hrun as [| ? ? Px Hrun']; subst.
    unfold orelse. rewrite (Hfirst [] x run eq_refl).
    rewrite class_step, Px, shorter_tail.
    apply IH; [exact Hrun' | | simpl in Hn; lia | exact Hk].
    intros pre1 c pre2 E. apply (Hfirst (x :: pre1) c pre2). now rewrite E.
Qed.

Lemma plus_class_complete (p : ascii -> bool) (k : cont) (run s' : chars)
    (cs : caps) (res : caps * chars) :
  run <> [] ->
  Forall (fun c => p c = true) run ->
  (forall c t, s' = c :: t -> p c = false) ->
  k s' cs = Some res ->
  rmatch (Plus (Class p)) (run ++ s') cs k = Some res.
Proof.
  intros Hne Hrun Hstop Hk. destruct run as [| x run]; [contradiction |].
  inversion Hrun as [| ? ? Px Hrun']; subst.
  unfold Plus. rewrite rmatch_seq.
  change ((x :: run) ++ s') with (x :: run ++ s').
  rewrite class_step, Px, rmatch_star. now apply greedy_star_class_complete.
Qed.

Lemma group_plus_class_complete (p : ascii -> bool) (i : nat) (k : cont)
    (run s' : chars) (cs : caps) (res : caps * chars) :
  run <> [] ->
  Forall (fun c => p c = true) run ->
  (forall c t, s' = c :: t -> p c = false) ->
  k s' ((i, run) :: cs) = Some res ->
  rmatch (Group i (Plus (Class p))) (run ++ s') cs k = Some res.
Proof.
  intros Hne Hrun Hstop Hk. rewrite rmatch_group.
  apply plus_class_complete; try assumption. now rewrite consumed_app.
Qed.

Lemma space_not_word (c : ascii) : is_space c = true -> is_word c = false.
Proof.
  destruct c as [[] [] [] [] [] [] [] []]; vm_compute; congruence.
Qed.

Lemma ws_complete (k : cont) (sp s' : chars) (cs : caps) (res : caps * chars) :
  Forall (fun c => is_space c = true) sp ->
  (forall c t, s' = c :: t -> is_space c = false) ->
  k s' cs = Some res ->
  rmatch ws (sp ++ s') cs k = Some res.
Proof.
  intros Hsp Hstop Hk. unfold ws. rewrite rmatch_star.
  now apply greedy_star_class_complete.
Qed.

Lemma args_tail_complete (args rest : chars) (cs : caps) :
  ~ In ")"%char args -> ~ In newline args ->
  rmatch args_tail ("("%char :: args ++ ")"%char :: rest) cs accept
  = Some ((2, args) :: cs, rest).
Proof.
  intros Hp Hn. unfold args_tail, lparen, rparen.
  rewrite rmatch_seq, lit_complete, rmatch_seq, rmatch_group, rmatch_star.
  apply lazy_star_class_complete.
  - apply Forall_forall. intros c Hc. unfold is_dot.
    destruct (Ascii.eqb c newline) eqn:E; [| reflexivity].
    apply Ascii.eqb_eq in E. subst. contradiction.
  - intros pre1 c pre2 E. simpl.
    destruct (Ascii.eqb c ")") eqn:Ec; [| reflexivity].
    apply Ascii.eqb_eq in Ec. subst c. exfalso. apply Hp. rewrite E.
    apply in_elt.
  - lia.
  - rewrite consumed_app, lit_complete. reflexivity.
Qed.

(** After a name, white space and an opening parenthesis follow: none of
    them is a word character. *)
Lemma after_name_not_word (sp tail : chars) :
  Forall (fun c => is_space c = true) sp ->
  forall c t, sp ++ "("%char :: tail = c :: t -> is_word c = false.
Proof.
  intros Hsp c t E. destruct sp as [| x sp]; simpl in E; injection E as <- _.
  - reflexivity.
  - inversion Hsp; subst. now apply space_not_word.
Qed.

Lemma lparen_not_space (tail : chars) :
  forall c t, "("%char :: tail = c :: t -> is_space c = false.
Proof. intros c t [= <- _]. reflexivity. Qed.

Lemma test_pattern_complete (name sp args rest : chars) :
  name <> [] -> Forall (fun c => is_word c = true) name ->
  Forall (fun c => is_space c = true) sp ->
  ~ In ")"%char args -> ~ In newline args ->
  match_here test_pattern
    ("."%char :: name ++ sp ++ "("%char :: args ++ ")"%char :: rest)
  = Some ([(2, args); (1, name)], rest).
Proof.
  intros Hne Hw Hsp Hp Hn. unfold match_here, test_pattern.
  rewrite rmatch_seq, lit_complete, rmatch_seq. unfold w.
  apply group_plus_class_complete; try assumption.
  - now apply after_name_not_word.
  - rewrite rmatch_seq. apply ws_complete; [assumption | apply lparen_not_space |].
    now apply args_tail_complete.
Qed.

Lemma impl_pattern_complete (gap name sp params rest : chars) :
  gap <> [] -> Forall (fun c => is_space c = true) gap ->
  name <> [] -> Forall (fun c => is_word c = true) name ->
  Forall (fun c => is_space c = true) sp ->
  ~ In ")"%char params -> ~ In newline params ->
  match_here impl_pattern
    (unstr "fun" ++ gap ++ name ++ sp ++ "("%char :: params ++ ")"%char :: rest)
  = Some ([(2, params); (1, name)], rest).
Proof.
  intros Hg Hgs Hne Hw Hsp Hp Hn. unfold match_here, impl_pattern.
  rewrite rmatch_seq. unfold Text. rewrite word_complete, rmatch_seq.
  apply plus_class_complete; try assumption.
  - intros c t E. destruct name as [| x name]; [contradiction |].
    simpl in E. injection E as <- _. inversion Hw; subst.
    destruct (is_space x) eqn:Es; [| reflexivity].
    apply space_not_word in Es. congruence.
  - rewrite rmatch_seq. unfold w.
    apply group_plus_class_complete; try assumption.
    + now apply after_name_not_word.
    + rewrite rmatch_seq.
      apply ws_complete; [assumption | apply lparen_not_space |].
      now apply args_tail_complete.
Qed.

(** Scanning goes on behind a match. *)
Lemma scan_skip (r : regex) (pre s : chars) :
  scan r (pre ++ s) (length pre) = scan r s 0.
Proof.
  induction pre as [| x pre IH]; simpl; [| exact IH].
  destruct s; reflexivity.
Qed.

Lemma scan_cons (r : regex) (x : ascii) (t : chars) :
  scan r (x :: t) 0
  = match match_here r (x :: t) with
    | Some (cs, rest) => cs :: scan r t (length (x :: t) - length rest - 1)
    | None => scan r t 0
    end.
Proof. reflexivity. Qed.

Lemma scan_match (r : regex) (x : ascii) (body rest : chars) (m : caps) :
  match_here r (x :: body ++ rest) = Some (m, rest) ->
  scan r (x :: body ++ rest) 0 = m :: scan r rest 0.
Proof.
  intros H. rewrite scan_cons, H. f_equal.
  assert (E : length (x :: body ++ rest) - length rest - 1 = length body).
  { cbn [length]. rewrite length_app. lia. }
  rewrite E. apply scan_skip.
Qed.

(** Text in which the pattern matches nowhere is passed over. *)
Lemma scan_pass (r : regex) (before s : chars) :
  (forall pre here, before = pre ++ here -> here <> [] ->
                    match_here r (here ++ s) = None) ->
  scan r (before ++ s) 0 = scan r s 0.
Proof.
  induction before as [| x before IH]; intros H; [reflexivity |].
  change ((x :: before) ++ s) with (x :: before ++ s). rewrite scan_cons.
  change (x :: before ++ s) with ((x :: before) ++ s).
  rewrite (H [] (x :: before) eq_refl); [| discriminate].
  apply IH. intros pre here E Hne. apply (H (x :: pre) here); [| exact Hne].
  now rewrite E.
Qed.

Lemma test_pattern_needs_dot (s : chars) :
  (forall t, s <> "."%char :: t) -> match_here test_pattern s = None.
Proof.
  intros H. unfold match_here, test_pattern. rewrite rmatch_seq. simpl rmatch at 1.
  destruct s as [| x t]; [reflexivity |].
  destruct (Ascii.eqb x ".") eqn:E; [| reflexivity].
  apply Ascii.eqb_eq in E. subst. now destruct (H t).
Qed.

Lemma impl_pattern_needs_f (s : chars) :
  (forall t, s <> "f"%char :: t) -> match_here impl_pattern s = None.
Proof.
  intros H. unfold match_here, impl_pattern. rewrite rmatch_seq.
  destruct s as [| x t]; [reflexivity |].
  change (Text "fun") with (Seq (Lit "f") (Word (unstr "un"))).
  rewrite rmatch_seq. simpl rmatch at 1.
  destruct (Ascii.eqb x "f") eqn:E; [| reflexivity].
  apply Ascii.eqb_eq in E. subst. now destruct (H t).
Qed.

Lemma scan_pass_without (r : regex) (c : ascii) (before s : chars) :
  (forall here, (forall t, here <> c :: t) -> match_here r here = None) ->
  ~ In c before ->
  scan r (before ++ s) 0 = scan r s 0.
Proof.
  intros Hr Hc. apply scan_pass. intros pre here E Hne. apply Hr.
  intros t Et. destruct here as [| x here]; [contradiction |].
  simpl in Et. injection Et as -> _. apply Hc. rewrite E. apply in_elt.
Qed.

End Completeness.

Lemma plain_call_capture :
  forall before name sp args rest,
    ~ In "."%char before ->
    name <> [] -> Forall (fun c => is_word c = true) name ->
    Forall (fun c => is_space c = true) sp ->
    ~ In ")"%char args -> ~ In newline args ->
    finditer test_pattern
      (str (before ++ "."%char :: name ++ sp ++ "("%char :: args
            ++ ")"%char :: rest))
    = [(2, args); (1, name)] :: finditer test_pattern (str rest).
Proof.
  intros before name sp args rest Hb Hne Hw Hsp Hp Hn.
  unfold finditer. rewrite !unstr_str.
  rewrite (scan_pass_without test_pattern "."%char before _
             test_pattern_needs_dot Hb).
  pose proof (test_pattern_complete name sp args rest Hne Hw Hsp Hp Hn) as Hm.
  replace (name ++ sp ++ "("%char :: args ++ ")"%char :: rest)
    with ((name ++ sp ++ "("%char :: args ++ [")"%char]) ++ rest) in *
    by (now rewrite <- !app_assoc; simpl; rewrite <- !app_assoc).
  now apply scan_match.
Qed.

(** A call [.name(args)] whose argument text holds no closing parenthesis
    and no line feed, standing after text without a dot, is the first match
    of the call pattern of the arity rule: the name and the whole argument
    text are captured as written, and the search goes on behind the closing
    parenthesis. *)
Theorem plain_call_is_captured_as_written :
  forall before name sp args rest,
    ~ In "."%char before ->
    name <> [] -> Forall (fun c => is_word c = true) name ->
    Forall (fun c => is_space c = true) sp ->
    ~ In ")"%char args -> ~ In newline args ->
    finditer test_pattern
      (str (before ++ "."%char :: name ++ sp ++ "("%char :: args
            ++ ")"%char :: rest))
    = [(2, args); (1, name)] :: finditer test_pattern (str rest).
Proof. exact plain_call_capture. Qed.

Lemma plain_call_witness :
  finditer test_pattern (str (unstr "val r = svc.save (item, 3) // end"))
  = [(2, unstr "item, 3"); (1, unstr "save")]
      :: finditer test_pattern (str (unstr " // end")).
Proof.
  apply (plain_call_is_captured_as_written
           (unstr "val r = svc") (unstr "save") (unstr " ") (unstr "item, 3")
           (unstr " // end")).
  - vm_compute. intuition discriminate.
  - discriminate.
  - vm_compute. repeat constructor.
  - vm_compute. repeat constructor.
  - vm_compute. intuition discriminate.
  - vm_compute. intuition discriminate.
Defined.

Lemma plain_definition_capture :
  forall before gap name sp params rest,
    ~ In "f"%char before ->
    gap <> [] -> Forall (fun c => is_space c = true) gap ->
    name <> [] -> Forall (fun c => is_word c = true) name ->
    Forall (fun c => is_space c = true) sp ->
    ~ In ")"%char params -> ~ In newline params ->
    finditer impl_pattern
      (str (before ++ unstr "fun" ++ gap ++ name ++ sp ++ "("%char :: params
            ++ ")"%char :: rest))
    = [(2, params); (1, name)] :: finditer impl_pattern (str rest).
Proof.
  intros before gap name sp params rest Hb Hg Hgs Hne Hw Hsp Hp Hn.
  unfold finditer. rewrite !unstr_str.
  rewrite (scan_pass_without impl_pattern "f"%char before _
             impl_pattern_needs_f Hb).
  pose proof (impl_pattern_complete gap name sp params rest
                Hg Hgs Hne Hw Hsp Hp Hn) as Hm.
  change (unstr "fun") with ("f"%char :: unstr "un") in *.
  replace (("f"%char :: unstr "un") ++ gap ++ name ++ sp ++ "("%char :: params
           ++ ")"%char :: rest)
    with ("f"%char :: (unstr "un" ++ gap ++ name ++ sp ++ "("%char :: params
                       ++ [")"%char]) ++ rest) in *
    by (simpl; now rewrite <- !app_assoc; simpl; rewrite <- !app_assoc).
  now apply scan_match.
Qed.

(** A declaration [fun name(params)] whose parameter text holds no closing
    parenthesis and no line feed, standing after text without the letter
    [f], is the first match of the signature pattern, with the name and the
    whole parameter text captured as written. *)
Theorem plain_definition_is_captured_as_written :
  forall before gap name sp params rest,
    ~ In "f"%char before ->
    gap <> [] -> Forall (fun c => is_space c = true) gap ->
    name <> [] -> Forall (fun c => is_word c = true) name ->
    Forall (fun c => is_space c = true) sp ->
    ~ In ")"%char params -> ~ In newline params ->
    finditer impl_pattern
      (str (before ++ unstr "fun" ++ gap ++ name ++ sp ++ "("%char :: params
            ++ ")"%char :: rest))
    = [(2, params); (1, name)] :: finditer impl_pattern (str rest).
Proof. exact plain_definition_capture. Qed.

Lemma plain_definition_witness :
  finditer impl_pattern (str (unstr "open fun save(item: Item, n: Int): Item"))
  = [(2, unstr "item: Item, n: Int"); (1, unstr "save")]
      :: finditer impl_pattern (str (unstr ": Item")).
Proof.
  apply (plain_definition_is_captured_as_written
           (unstr "open ") (unstr " ") (unstr "save") [] (unstr "item: Item, n: Int")
           (unstr ": Item")).
  - vm_compute. intuition discriminate.
  - discriminate.
  - vm_compute. repeat constructor.
  - discriminate.
  - vm_compute. repeat constructor.
  - constructor.
  - vm_compute. intuition discriminate.
  - vm_compute. intuition discriminate.
Defined.

Section EndToEnd.

Lemma finditer_none_without (r : regex) (c : ascii) (text : chars) :
  (forall here, (forall t, here <> c :: t) -> match_here r here = None) ->
  ~ In c text ->
  finditer r (str text) = [].
Proof.
  intros Hr Hc. unfold finditer. rewrite unstr_str.
  rewrite <- (app_nil_r text). now rewrite (scan_pass_without r c text [] Hr Hc).
Qed.

Lemma call_sites_need_dot (test : string) :
  ~ In "."%char (unstr test) -> call_sites test = [].
Proof.
  intros Hd. apply nil_no_element. intros [obj method] H.
  unfold call_sites in H. apply in_map_iff in H. destruct H as (cs & _ & H).
  apply finditer_sound in H. destruct H as (before & here & rest & Ht & Hm).
  apply call_pattern_sound in Hm. destruct Hm as (o & m & sp & -> & _).
  apply Hd. rewrite Ht, !in_app_iff. right. right. now left.
Qed.

Lemma test_calls_need_dot (test : string) :
  ~ In "."%char (unstr test) -> test_calls test = [].
Proof.
  intros Hd. unfold test_calls.
  rewrite <- (str_unstr test), (finditer_none_without test_pattern "."%char);
    [reflexivity | apply test_pattern_needs_dot | exact Hd].
Qed.

End EndToEnd.

(** A test text without a dot has no call site for either error rule: the
    run has no error and passes, whatever the implementation text holds. *)
Theorem test_text_without_dot_has_no_error :
  forall h test impl,
    ~ In "."%char (unstr test) ->
    errors (snd (run_all_checks h (init test impl))) = []
    /\ fst (fst (run_all_checks h (init test impl))) = true.
Proof.
  intros h test impl Hd.
  assert (E : errors (snd (run_all_checks h (init test impl))) = []).
  { destruct (run_all_checks_state h (init test impl)) as (_ & _ & He & _).
    rewrite He, undefined_method_errors_eq, arity_errors_flat.
    unfold extract_method_calls. cbn [init errors test_code impl_code].
    now rewrite (call_sites_need_dot test Hd), (test_calls_need_dot test Hd). }
  split; [exact E |]. now rewrite run_all_checks_success, E.
Qed.

Lemma test_text_without_dot_witness :
  errors (snd (run_all_checks perm_rot_order
                 (init "fun shouldSave() { assertTrue(saved) }" "fun save(x: Int)")))
  = [].
Proof.
  apply (test_text_without_dot_has_no_error perm_rot_order).
  vm_compute. intuition discriminate.
Defined.

(** One plain call against one plain definition of the same name: the
    arity rule yields no error when the two texts have the same parameter
    count, and otherwise the one error that names the method and both
    counts. *)
Theorem single_call_against_single_definition :
  forall tb name sp args tr ib gap isp params ir,
    ~ In "."%char tb -> ~ In "."%char tr ->
    name <> [] -> Forall (fun c => is_word c = true) name ->
    Forall (fun c => is_space c = true) sp ->
    ~ In ")"%char args -> ~ In newline args ->
    ~ In "f"%char ib -> ~ In "f"%char ir ->
    gap <> [] -> Forall (fun c => is_space c = true) gap ->
    Forall (fun c => is_space c = true) isp ->
    ~ In ")"%char params -> ~ In newline params ->
    arity_errors
      (init (str (tb ++ "."%char :: name ++ sp ++ "("%char :: args
                  ++ ")"%char :: tr))
            (str (ib ++ unstr "fun" ++ gap ++ name ++ isp ++ "("%char :: params
                  ++ ")"%char :: ir)))
    = if param_count (str args) =? param_count (str params) then []
      else [arity_msg (str name) (param_count (str args))
                      (param_count (str params))].
Proof.
  intros tb name sp args tr ib gap isp params ir
         Htb Htr Hne Hw Hsp Hap Han Hib Hir Hg Hgs Hisp Hpp Hpn.
  rewrite arity_errors_flat. cbn [init test_code impl_code].
  unfold test_calls, impl_sigs.
  rewrite (plain_call_capture tb name sp args tr)
    by assumption.
  rewrite (plain_definition_capture ib gap name isp params ir)
    by assumption.
  rewrite (finditer_none_without test_pattern "."%char tr
             test_pattern_needs_dot Htr).
  rewrite (finditer_none_without impl_pattern "f"%char ir
             impl_pattern_needs_f Hir).
  cbn [fold_left record_sig dict_set flat_map check_signature dict_get].
  unfold group_str. cbn [group Nat.eqb]. rewrite String.eqb_refl, app_nil_r.
  destruct (param_count (str args) =? param_count (str params)); reflexivity.
Qed.

Lemma single_call_against_single_definition_witness :
  arity_errors (init (str (unstr "svc.save(a, b);"))
                     (str (unstr "open fun save(x: Int)")))
  = [arity_msg "save" 2 1].
Proof.
  refine (single_call_against_single_definition
            (unstr "svc") (unstr "save") [] (unstr "a, b") (unstr ";")
            (unstr "open ") (unstr " ") [] (unstr "x: Int") []
            _ _ _ _ _ _ _ _ _ _ _ _ _ _).
  - vm_compute. intuition discriminate.
  - vm_compute. intuition discriminate.
  - discriminate.
  - vm_compute. repeat constructor.
  - constructor.
  - vm_compute. intuition discriminate.
  - vm_compute. intuition discriminate.
  - vm_compute. intuition discriminate.
  - intros [].
  - discriminate.
  - vm_compute. repeat constructor.
  - constructor.
  - vm_compute. intuition discriminate.
  - vm_compute. intuition discriminate.
Defined.

(** ** The arity rule, name by name *)

Section ArityByName.








End ArityByName.



